(** * procfs: process discovery over /proc (procfs_linux.go)

    A shallow embedding of [src/procfs/procfs_linux.go] and of the parts of
    the Go standard library it calls, followed by the properties of the
    package.

    Conventions.
    - A Go [string] and a Go [[]byte] are both byte sequences; both are
      modelled by [string] (a list of [ascii], i.e. of bytes), and the
      conversions [string(b)] between them are the identity.
    - A rune is a code point, an [N].  A Go [int] (pids, signals, errno
      values) is a [Z].
    - A slice is an [option (list A)]: [None] is the nil slice, [Some l] a
      non-nil slice with elements [l].
    - A Go [error] is an [option error]: [None] is [nil]. *)

From Stdlib Require Import String Ascii List NArith ZArith Lia Bool.
From Stdlib Require Import DecimalString DecimalPos.
Import ListNotations.
Open Scope string_scope.
Open Scope bool_scope.

(* ================================================================== *)
(** * Byte sequences *)

Fixpoint drop (n : nat) (s : string) : string :=
  match n, s with
  | O, _ => s
  | S n', String _ t => drop n' t
  | S _, EmptyString => EmptyString
  end.

Fixpoint take (n : nat) (s : string) : string :=
  match n, s with
  | O, _ => EmptyString
  | S n', String c t => String c (take n' t)
  | S _, EmptyString => EmptyString
  end.

(** [s[len(s)-n:]], the last [n] bytes of [s] (all of [s] when it is shorter). *)
Definition last_bytes (n : nat) (s : string) : string :=
  drop (String.length s - n) s.

(** [mem c s]: the byte [c] occurs in [s]. *)
Fixpoint mem (c : ascii) (s : string) : bool :=
  match s with
  | EmptyString => false
  | String d t => Ascii.eqb d c || mem c t
  end.

(** [all_bytes p s]: every byte of [s] satisfies [p]. *)
Fixpoint all_bytes (p : ascii -> bool) (s : string) : bool :=
  match s with
  | EmptyString => true
  | String c t => p c && all_bytes p t
  end.

(** [contains sub s]: [sub] occurs in [s] as a contiguous substring. *)
Fixpoint contains (sub s : string) : bool :=
  String.prefix sub s ||
  match s with
  | EmptyString => false
  | String _ t => contains sub t
  end.

(** Slices: [len] of a nil slice is 0. *)
Definition len {A : Type} (s : option (list A)) : nat :=
  match s with
  | None => 0
  | Some l => List.length l
  end.

(* ================================================================== *)
(** * Package unicode/utf8 *)

Module utf8.

Definition RuneError : N := 0xFFFD.
Definition RuneSelf : N := 0x80.
Definition UTFMax : nat := 4.

Definition byte (c : ascii) : N := N_of_ascii c.

Definition between (lo hi b : N) : bool := (lo <=? b)%N && (b <=? hi)%N.

(** Second-byte range accepted after the leading byte [b0]
    (the [acceptRanges] table): the default is 80..BF. *)
Definition accept_lo (b0 : N) : N :=
  if (b0 =? 0xE0)%N then 0xA0 else if (b0 =? 0xF0)%N then 0x90 else 0x80.
Definition accept_hi (b0 : N) : N :=
  if (b0 =? 0xED)%N then 0x9F else if (b0 =? 0xF4)%N then 0x8F else 0xBF.

(** [DecodeRuneInString]: the first rune of [s] and its width in bytes;
    [(RuneError, 0)] on the empty string and [(RuneError, 1)] on an
    invalid or truncated encoding.  The payload bits are written with
    subtraction and multiplication; on the ranges already checked they
    are the masks and shifts of the Go code
    ([(b0 & 0x1F) << 6 | (b1 & 0x3F)] and so on). *)
Definition DecodeRuneInString (s : string) : N * nat :=
  match s with
  | EmptyString => (RuneError, 0)
  | String c0 t =>
    let b0 := byte c0 in
    if (b0 <? RuneSelf)%N then (b0, 1)
    else if (b0 <? 0xC2)%N || (0xF4 <? b0)%N then (RuneError, 1)
    else
      match t with
      | EmptyString => (RuneError, 1)
      | String c1 t1 =>
        let b1 := byte c1 in
        if negb (between (accept_lo b0) (accept_hi b0) b1) then (RuneError, 1)
        else if (b0 <? 0xE0)%N then
          (((b0 - 0xC0) * 64 + (b1 - 0x80))%N, 2)
        else
          match t1 with
          | EmptyString => (RuneError, 1)
          | String c2 t2 =>
            let b2 := byte c2 in
            if negb (between 0x80 0xBF b2) then (RuneError, 1)
            else if (b0 <? 0xF0)%N then
              (((b0 - 0xE0) * 4096 + (b1 - 0x80) * 64 + (b2 - 0x80))%N, 3)
            else
              match t2 with
              | EmptyString => (RuneError, 1)
              | String c3 _ =>
                let b3 := byte c3 in
                if negb (between 0x80 0xBF b3) then (RuneError, 1)
                else
                  (((b0 - 0xF0) * 262144 + (b1 - 0x80) * 4096
                    + (b2 - 0x80) * 64 + (b3 - 0x80))%N, 4)
              end
          end
      end
  end.

(** [RuneStart]: the byte is not a continuation byte. *)
Definition RuneStart (b : N) : bool := negb (between 0x80 0xBF b).

(** The number of bytes, at most [k], to step back from the end of the
    reversed byte list [r] to reach a rune start (the backward loop of
    [DecodeLastRuneInString], started one byte before the end). *)
Fixpoint back_to_start (k : nat) (r : list ascii) (n : nat) : nat :=
  match k, r with
  | S k', c :: r' =>
    if RuneStart (byte c) then S n else back_to_start k' r' (S n)
  | _, _ => n
  end.

(** [DecodeLastRuneInString]: the last rune of [s] and its width. *)
Definition DecodeLastRuneInString (s : string) : N * nat :=
  match rev (list_ascii_of_string s) with
  | [] => (RuneError, 0)
  | c :: r =>
    if (byte c <? RuneSelf)%N then (byte c, 1)
    else
      (* start-- ; for start >= lim ; start--: at most UTFMax-1 further
         bytes are inspected, stopping at a rune start or at index 0.
         When none of them is a rune start Go steps one byte further
         back; the decoding then fails as it does here, from a
         continuation byte. *)
      let back := back_to_start (UTFMax - 1) r 1 in
      let '(r', size) := DecodeRuneInString (last_bytes back s) in
      if Nat.eqb size back then (r', size) else (RuneError, 1)
  end.

(** The runes of [s] in order, each with the bytes it was decoded from
    (what [for i, r := range s] enumerates). *)
Fixpoint runes_fuel (fuel : nat) (s : string) : list (N * string) :=
  match fuel with
  | O => []
  | S fuel' =>
    match s with
    | EmptyString => []
    | String _ _ =>
      let '(r, w) := DecodeRuneInString s in
      (r, take w s) :: runes_fuel fuel' (drop w s)
    end
  end.
Definition runes (s : string) : list (N * string) :=
  runes_fuel (String.length s) s.

End utf8.

(* ================================================================== *)
(** * Package unicode *)

Module unicode.

(** [IsSpace]: the Latin-1 spaces, then the White_Space range table. *)
Definition IsSpace (r : N) : bool :=
  if (r <=? 0xFF)%N then
    utf8.between 0x09 0x0D r || (r =? 0x20)%N || (r =? 0x85)%N || (r =? 0xA0)%N
  else
    (r =? 0x1680)%N || utf8.between 0x2000 0x200A r
    || utf8.between 0x2028 0x2029 r || (r =? 0x202F)%N
    || (r =? 0x205F)%N || (r =? 0x3000)%N.

End unicode.

(* ================================================================== *)
(** * Packages strings and bytes *)

Module strings.

(** [cut sep s]: the text before and after the first occurrence of the
    byte [sep] in [s] ([Index] followed by the two slicings). *)
Fixpoint cut (sep : ascii) (s : string) : option (string * string) :=
  match s with
  | EmptyString => None
  | String c t =>
    if Ascii.eqb c sep then Some (EmptyString, t)
    else match cut sep t with
         | Some (a, b) => Some (String c a, b)
         | None => None
         end
  end.

(** The loop of [genSplit]: at most [n] pieces, the last one unsplit. *)
Fixpoint pieces (n : nat) (sep : ascii) (s : string) : list string :=
  match n with
  | O => []
  | S O => [s]
  | S n' =>
    match cut sep s with
    | None => [s]
    | Some (a, b) => a :: pieces n' sep b
    end
  end.

(** [SplitN(s, sep, n)] for a separator of one byte, as at every call
    site of the package: [n = 0] gives nil, [n < 0] all pieces
    ([Count(s, sep) + 1] of them, at most [len(s) + 1]). *)
Definition SplitN (s : string) (sep : ascii) (n : Z) : list string :=
  if (n =? 0)%Z then []
  else if (n <? 0)%Z then pieces (S (String.length s)) sep s
  else pieces (Z.to_nat n) sep s.

Definition Split (s : string) (sep : ascii) : list string := SplitN s sep (-1).

(** [Join(elems, sep)]. *)
Fixpoint Join (elems : list string) (sep : string) : string :=
  match elems with
  | [] => EmptyString
  | [a] => a
  | a :: rest => a ++ sep ++ Join rest sep
  end.

(** [TrimLeftFunc(s, f)]: drop leading runes satisfying [f]. *)
Fixpoint trim_left_fuel (fuel : nat) (f : N -> bool) (s : string) : string :=
  match fuel with
  | O => s
  | S fuel' =>
    match s with
    | EmptyString => EmptyString
    | String _ _ =>
      let '(r, w) := utf8.DecodeRuneInString s in
      if f r then trim_left_fuel fuel' f (drop w s) else s
    end
  end.
Definition TrimLeftFunc (s : string) (f : N -> bool) : string :=
  trim_left_fuel (String.length s) f s.

(** [lastIndexFunc(s, f, false)]: the index at which the last rune not
    satisfying [f] starts, scanning backwards; [None] is -1. *)
Fixpoint last_index_fuel (fuel : nat) (f : N -> bool) (s : string) : option nat :=
  match fuel with
  | O => None
  | S fuel' =>
    let '(r, size) := utf8.DecodeLastRuneInString s in
    match size with
    | O => None
    | _ =>
      let i := String.length s - size in
      if f r then last_index_fuel fuel' f (take i s) else Some i
    end
  end.

(** [TrimRightFunc(s, f)]. *)
Definition TrimRightFunc (s : string) (f : N -> bool) : string :=
  match last_index_fuel (String.length s) f s with
  | None => EmptyString                       (* s[0:0] *)
  | Some i =>
    match String.get i s with
    | Some c =>
      if (utf8.RuneSelf <=? utf8.byte c)%N
      then take (i + snd (utf8.DecodeRuneInString (drop i s))) s
      else take (S i) s
    | None => take (S i) s
    end
  end.

Definition TrimFunc (s : string) (f : N -> bool) : string :=
  TrimRightFunc (TrimLeftFunc s f) f.

(** [TrimSpace(s)]. *)
Definition TrimSpace (s : string) : string := TrimFunc s unicode.IsSpace.

(** [FieldsFunc(s, f)]: the maximal runs of runes not satisfying [f].
    [cur] is the field being read ([None] outside a field). *)
Fixpoint fields (f : N -> bool) (rs : list (N * string)) (cur : option string)
  : list string :=
  match rs with
  | [] => match cur with Some w => [w] | None => [] end
  | (r, bs) :: rest =>
    if f r then
      match cur with
      | Some w => w :: fields f rest None
      | None => fields f rest None
      end
    else
      match cur with
      | Some w => fields f rest (Some (w ++ bs))
      | None => fields f rest (Some bs)
      end
  end.
Definition FieldsFunc (s : string) (f : N -> bool) : list string :=
  fields f (utf8.runes s) None.

End strings.

Module bytes.
(** [bytes.SplitN] is [strings.SplitN] on byte slices. *)
Definition SplitN := strings.SplitN.
End bytes.

(* ================================================================== *)
(** * Package strconv *)

Module strconv.

(** [Itoa]: decimal text of an [int]. *)
Definition Itoa (i : Z) : string := NilZero.string_of_int (Z.to_int i).

Definition is_digit (c : ascii) : bool :=
  utf8.between 48 57 (N_of_ascii c).

(** Value of a string of decimal digits, most significant first. *)
Fixpoint digits_value (acc : Z) (s : string) : Z :=
  match s with
  | EmptyString => acc
  | String c t => digits_value (acc * 10 + (Z.of_N (N_of_ascii c) - 48)) t
  end.

Definition int_min : Z := - 2 ^ 63.
Definition int_max : Z := 2 ^ 63 - 1.

(** [Atoi] on a 64-bit platform: an optional sign, then one or more
    decimal digits, the value within the range of [int]; [None] is the
    [*NumError] (syntax or range), whose value no caller inspects. *)
Definition Atoi (s : string) : option Z :=
  let '(neg, ds) :=
    match s with
    | String "-" t => (true, t)
    | String "+" t => (false, t)
    | _ => (false, s)
    end in
  match ds with
  | EmptyString => None
  | _ =>
    if all_bytes is_digit ds then
      let v := digits_value 0 ds in
      let v := if neg then (- v)%Z else v in
      if (int_min <=? v)%Z && (v <=? int_max)%Z then Some v else None
    else None
  end.

End strconv.

Module path.
(** [Join]: the non-empty elements joined with a slash.  The final
    [Clean] is left out: it is the identity on the paths this package
    builds, whose elements are non-empty and contain neither a slash nor
    a dot ([/proc/<digits>/cgroup], [/proc/<[+-]digits>/cmdline]). *)
Definition Join (elems : list string) : string :=
  strings.Join (filter (fun e => negb (String.eqb e "")) elems) "/".
End path.

Module filepath.
(** On Linux [filepath.Join] is [path.Join]. *)
Definition Join := path.Join.
End filepath.

(* ================================================================== *)
(** * Errors *)

(** The error values the package creates, receives or compares. *)
Inductive error : Type :=
| EOF                                          (* io.EOF *)
| ErrNotExist                                  (* os.ErrNotExist *)
| Errno (e : Z)                                (* syscall.Errno *)
| PathError (op path : string) (err : error)   (* *os.PathError *)
| SyscallError (call : string) (err : error)   (* *os.SyscallError *)
| SyntaxError (code expr : string)             (* *syntax.Error of regexp *)
| Errorf (format : string) (args : list string).
  (* the value of fmt.Errorf(format, args...); its text is
     fmt.Sprintf(format, args...) *)

Inductive result (A : Type) : Type :=
| Ok (a : A)
| Err (e : error).
Arguments Ok {A} a.
Arguments Err {A} e.

Definition ENOENT : Z := 2.

Module os.

(** [underlyingError]: one level of *PathError / *SyscallError. *)
Definition underlyingError (err : error) : error :=
  match err with
  | PathError _ _ e => e
  | SyscallError _ e => e
  | _ => err
  end.

(** [IsNotExist(err)]: the underlying error is [ErrNotExist] itself or
    the errno ENOENT ([Errno.Is]). *)
Definition IsNotExist (err : error) : bool :=
  match underlyingError err with
  | ErrNotExist => true
  | Errno e => (e =? ENOENT)%Z
  | _ => false
  end.

End os.

(* ================================================================== *)
(** * The operating system as seen by the package *)

(** [os.FileInfo], reduced to the two methods the scan calls. *)
Record FileInfo : Type := mkFileInfo {
  Name : string;
  IsDir : bool
}.

(** System calls, in the order performed. *)
Inductive Event : Type :=
| EvOpen (name : string)
| EvReaddir (n : Z)
| EvClose
| EvReadFile (name : string)
| EvKill (pid sig : Z).

(** What one call of [File.Readdir(n)] returns. *)
Definition ReaddirResult : Type := (list FileInfo * option error)%type.

(** The state of the system.
    - [dir_stream name]: the outcome of [os.Open(name)]; on success, the
      results of the successive [Readdir] calls on the handle.  Once the
      list is used up the directory is exhausted and [Readdir] returns
      [io.EOF].
    - [file_content name]: the outcome of [ioutil.ReadFile(name)].
    - [kill_outcome h pid sig]: the errno of [kill(pid, sig)] issued after
      the calls [h] ([None]: delivered).
    - [trace]: the calls performed so far, oldest first. *)
Record World : Type := mkWorld {
  dir_stream : string -> result (list ReaddirResult);
  file_content : string -> result string;
  kill_outcome : list Event -> Z -> Z -> option Z;
  trace : list Event
}.

Definition record (ev : Event) (w : World) : World :=
  mkWorld (dir_stream w) (file_content w) (kill_outcome w) (trace w ++ [ev])%list.

(** [ioutil.ReadFile]. *)
Definition ReadFile (filename : string) (w : World) : result string * World :=
  (file_content w filename, record (EvReadFile filename) w).

(** [os.Open] on a directory: the handle is the list of pending
    [Readdir] results. *)
Definition Open (name : string) (w : World)
  : result (list ReaddirResult) * World :=
  (dir_stream w name, record (EvOpen name) w).

(** [File.Readdir(n)]: the next result and the advanced handle. *)
Definition Readdir (dirFD : list ReaddirResult) (n : Z) (w : World)
  : ReaddirResult * list ReaddirResult * World :=
  match dirFD with
  | [] => (([], Some EOF), [], record (EvReaddir n) w)
  | r :: rest => (r, rest, record (EvReaddir n) w)
  end.

(** [File.Close]. *)
Definition Close (w : World) : World := record EvClose w.

(** [syscall.Kill]: the error is a [syscall.Errno]. *)
Definition Kill (pid sig : Z) (w : World) : option Z * World :=
  (kill_outcome w (trace w) pid sig, record (EvKill pid sig) w).

(* ================================================================== *)
(** * Package procfs *)

(** [containerNameFromProcCgroup]: the loop over the lines. *)
Fixpoint devices_line (lines : list string) : string * option error :=
  match lines with
  | [] => ("", Some (Errorf "could not find devices cgroup location" []))
  | line :: rest =>
    let entries := strings.SplitN line ":" 3 in
    if Nat.eqb (List.length entries) 3
       && String.eqb (nth 1 entries "") "devices"
    then (strings.TrimSpace (nth 2 entries ""), None)
    else devices_line rest
  end.

Definition containerNameFromProcCgroup (content : string)
  : string * option error :=
  let lines := strings.Split content "010" in
  devices_line lines.

(** [ProcFS.GetFullContainerName]. *)
Definition GetFullContainerName (pid : Z) (w : World)
  : (string * option error) * World :=
  let filePath := path.Join ["/proc"; strconv.Itoa pid; "cgroup"] in
  let '(r, w) := ReadFile filePath w in
  match r with
  | Err err =>
    if os.IsNotExist err then (("", Some ErrNotExist), w)
    else (("", Some err), w)
  | Ok content => (containerNameFromProcCgroup content, w)
  end.

Section Procfs.

(** Package regexp: the compiled expressions, [regexp.Compile] and
    [Regexp.MatchString]. *)
Variable Regexp : Type.
Variable Compile : string -> result Regexp.
Variable MatchString : Regexp -> string -> bool.

(** [syscall.Errno.Error]: the message of an errno. *)
Variable errno_text : Z -> string.

(** The separator test handed to [strings.FieldsFunc]. *)
Definition is_separator (c : N) : bool :=
  unicode.IsSpace c || (c =? 58)%N.              (* ':' *)

(** The body of the loop over one batch of directory entries. *)
Definition scan_entry (re : Regexp) (entry : FileInfo) (pids : list Z)
           (w : World) : list Z * World :=
  if negb (IsDir entry) then (pids, w)
  else
    match strconv.Atoi (Name entry) with
    | None => (pids, w)
    | Some pid =>
      let '(r, w) :=
        ReadFile (filepath.Join ["/proc"; Name entry; "cmdline"]) w in
      match r with
      | Err _ => (pids, w)          (* logged at verbosity 4, skipped *)
      | Ok cmdline =>
        match bytes.SplitN cmdline "000" 2 with
        | [] => (pids, w)
        | part0 :: _ =>
          match strings.FieldsFunc part0 is_separator with
          | [] => (pids, w)
          | exe0 :: _ =>
            if MatchString re exe0 then ((pids ++ [pid])%list, w) else (pids, w)
          end
        end
      end
    end.

Fixpoint scan_batch (re : Regexp) (ls : list FileInfo) (pids : list Z)
         (w : World) : list Z * World :=
  match ls with
  | [] => (pids, w)
  | entry :: rest =>
    let '(pids, w) := scan_entry re entry pids w in
    scan_batch re rest pids w
  end.

(** The [for] loop of [getPids]: one [Readdir(10)] per iteration.  The
    recursion follows the handle; past its end [Readdir] returns
    [io.EOF], which leaves the loop. *)
Fixpoint readdir_loop (re : Regexp) (dirFD : list ReaddirResult)
         (pids : list Z) (w : World) : option (list Z) * World :=
  match dirFD with
  | [] =>
    let '(_, _, w) := Readdir [] 10 w in (Some pids, w)
  | (ls, err) :: rest =>
    let '(_, _, w) := Readdir dirFD 10 w in
    match err with
    | Some EOF => (Some pids, w)
    | Some _ => (None, w)
    | None =>
      let '(pids, w) := scan_batch re ls pids w in
      readdir_loop re rest pids w
    end
  end.

(** [getPids]; the deferred [Close] runs on every path after [Open]
    succeeded. *)
Definition getPids (re : Regexp) (w : World) : option (list Z) * World :=
  let '(r, w) := Open "/proc" w in
  match r with
  | Err _ => (None, w)
  | Ok dirFD =>
    let '(pids, w) := readdir_loop re dirFD [] w in
    (pids, Close w)
  end.

(** The inner loop of [PKill]: [msg] is already among [errmsgs]. *)
Fixpoint seen (msg : string) (errmsgs : list string) : bool :=
  match errmsgs with
  | [] => false
  | item :: rest => if String.eqb item msg then true else seen msg rest
  end.

(** The loop of [PKill] over the pids. *)
Fixpoint kill_loop (pids : list Z) (sig : Z) (errmsgs : list string)
         (w : World) : list string * World :=
  match pids with
  | [] => (errmsgs, w)
  | pid :: rest =>
    let '(err, w) := Kill pid sig w in
    match err with
    | Some e =>
      let msg := errno_text e in
      if seen msg errmsgs then kill_loop rest sig errmsgs w
      else kill_loop rest sig (errmsgs ++ [msg])%list w
    | None => kill_loop rest sig errmsgs w
    end
  end.

Definition elements (pids : option (list Z)) : list Z :=
  match pids with
  | None => []
  | Some l => l
  end.

(** [PKill]. *)
Definition PKill (name : string) (sig : Z) (w : World)
  : option error * World :=
  if Nat.eqb (String.length name) 0 then
    (Some (Errorf "name should not be empty" []), w)
  else
    match Compile name with
    | Err err => (Some err, w)
    | Ok re =>
      let '(pids, w) := getPids re w in
      if Nat.eqb (len pids) 0 then
        (Some (Errorf "unable to fetch pids for process name : %q" [name]), w)
      else
        let '(errmsgs, w) := kill_loop (elements pids) sig [] w in
        let numErrors := List.length errmsgs in
        if Nat.ltb 0 numErrors then
          if Nat.eqb numErrors 1 then
            (Some (Errorf (nth 0 errmsgs "") []), w)
          else
            (Some (Errorf "[ %s ]" [strings.Join errmsgs ","]), w)
        else (None, w)
    end.

(** [PidOf]. *)
Definition PidOf (name : string) (w : World)
  : (option (list Z) * option error) * World :=
  if Nat.eqb (String.length name) 0 then
    ((Some [], Some (Errorf "name should not be empty" [])), w)
  else
    match Compile ("(^|/)" ++ name ++ "$") with
    | Err err => ((Some [], Some err), w)
    | Ok re =>
      let '(pids, w) := getPids re w in
      ((pids, None), w)
    end.

End Procfs.

Arguments scan_entry {Regexp} MatchString re entry pids w.
Arguments scan_batch {Regexp} MatchString re ls pids w.
Arguments readdir_loop {Regexp} MatchString re dirFD pids w.
Arguments getPids {Regexp} MatchString re w.
Arguments PKill {Regexp} Compile MatchString errno_text name sig w.
Arguments PidOf {Regexp} Compile MatchString name w.

(* ================================================================== *)
(** * Package regexp, in part *)

(** The part of Go's regular expressions (RE2 syntax, flags [syntax.Perl])
    made of literals, [.], [^], [$], capturing groups, alternation, the
    repetitions [*], [+], [?] (greedy or not) and escaped punctuation.
    Bracket expressions, counted repetitions, [(?...)] groups and flags,
    and escapes led by a letter or a digit are outside this part: on them
    [parse] answers [Unsupported] and nothing is said about them.  Limits
    of the implementation on the size or depth of an expression are not
    modelled. *)
Module regexp.

Inductive Regexp : Type :=
| EmptyMatch                       (* OpEmptyMatch *)
| Literal (r : N)                  (* OpLiteral, one rune *)
| AnyCharNotNL                     (* OpAnyCharNotNL: [.] *)
| BeginText                        (* OpBeginText: [^] *)
| EndText                          (* OpEndText: [$] *)
| Capture (sub : Regexp)           (* OpCapture *)
| Star (sub : Regexp)
| Plus (sub : Regexp)
| Quest (sub : Regexp)
| Concat (a b : Regexp)
| Alternate (a b : Regexp).

Inductive parse_result : Type :=
| Parsed (re : Regexp)
| Invalid (code : string)
| Unsupported.

Definition ErrInvalidUTF8 := "invalid UTF-8".
Definition ErrInvalidEscape := "invalid escape sequence".
Definition ErrMissingParen := "missing closing )".
Definition ErrUnexpectedParen := "unexpected )".
Definition ErrMissingRepeatArgument := "missing argument to repetition operator".
Definition ErrInvalidRepeatOp := "invalid nested repetition operator".
Definition ErrTrailingBackslash := "trailing backslash at end of expression".

(** The parser's stack between two pseudo-operators: the alternatives
    already closed by a [|] and the pieces of the one being read, both
    most recent first. *)
Record frame : Type := mkFrame {
  alts : list Regexp;
  items : list Regexp
}.

(** What the previous character was, where it matters for the next. *)
Inductive mode : Type :=
| Normal
| AfterParen                       (* just after an opening parenthesis *)
| AfterBackslash
| AfterRepeat (lazy_ok : bool).    (* just after a repetition; a [?]
                                      making it non-greedy may follow *)

Fixpoint seq (rs : list Regexp) : Regexp :=
  match rs with
  | [] => EmptyMatch
  | [x] => x
  | x :: rest => Concat x (seq rest)
  end.

Fixpoint alt (rs : list Regexp) : Regexp :=
  match rs with
  | [] => EmptyMatch
  | [x] => x
  | x :: rest => Alternate x (alt rest)
  end.

(** [concat] then [alternate]: the expression of a finished frame. *)
Definition collapse (f : frame) : Regexp :=
  alt (rev (seq (rev (items f)) :: alts f)).

Definition push (x : Regexp) (f : frame) : frame :=
  mkFrame (alts f) (x :: items f).

Definition isalnum (c : N) : bool :=
  utf8.between 48 57 c || utf8.between 65 90 c || utf8.between 97 122 c.

Definition is_repeat_op (c : N) : bool :=
  (c =? 42)%N || (c =? 43)%N || (c =? 63)%N.            (* * + ? *)

Definition repeat (c : N) (sub : Regexp) : Regexp :=
  if (c =? 42)%N then Star sub
  else if (c =? 43)%N then Plus sub
  else Quest sub.

Definition after_repeat (md : mode) : bool :=
  match md with AfterRepeat _ => true | _ => false end.

(** The main loop of the parser over the runes of the expression, each
    with its encoding. *)
Fixpoint parse_loop (t : list (N * string)) (md : mode)
         (stack : list frame) (cur : frame) : parse_result :=
  match t with
  | [] =>
    match md with
    | AfterBackslash => Invalid ErrTrailingBackslash
    | _ =>
      match stack with
      | [] => Parsed (collapse cur)
      | _ :: _ => Invalid ErrMissingParen
      end
    end
  | (c, enc) :: t' =>
    let bad := (c =? utf8.RuneError)%N && Nat.eqb (String.length enc) 1 in
    match md with
    | AfterBackslash =>
      if bad then Invalid ErrInvalidUTF8
      else if (utf8.RuneSelf <=? c)%N then Invalid ErrInvalidEscape
      else if isalnum c then Unsupported
      else parse_loop t' Normal stack (push (Literal c) cur)
    | _ =>
      if (c =? 40)%N then                                (* ( *)
        parse_loop t' AfterParen (cur :: stack) (mkFrame [] [])
      else if (c =? 63)%N
              && match md with AfterParen => true | _ => false end
      then Unsupported                                   (* (? *)
      else if (c =? 63)%N
              && match md with AfterRepeat true => true | _ => false end
      then parse_loop t' (AfterRepeat false) stack cur   (* non-greedy *)
      else if is_repeat_op c then
        if after_repeat md then Invalid ErrInvalidRepeatOp
        else
          match items cur with
          | [] => Invalid ErrMissingRepeatArgument
          | x :: xs =>
            parse_loop t' (AfterRepeat true) stack
                       (mkFrame (alts cur) (repeat c x :: xs))
          end
      else if (c =? 124)%N then                          (* | *)
        parse_loop t' Normal stack
                   (mkFrame (seq (rev (items cur)) :: alts cur) [])
      else if (c =? 41)%N then                           (* ) *)
        match stack with
        | [] => Invalid ErrUnexpectedParen
        | parent :: stack' =>
          parse_loop t' Normal stack' (push (Capture (collapse cur)) parent)
        end
      else if (c =? 94)%N then                           (* ^ *)
        parse_loop t' Normal stack (push BeginText cur)
      else if (c =? 36)%N then                           (* $ *)
        parse_loop t' Normal stack (push EndText cur)
      else if (c =? 46)%N then                           (* . *)
        parse_loop t' Normal stack (push AnyCharNotNL cur)
      else if (c =? 91)%N || (c =? 123)%N then           (* [ { *)
        Unsupported
      else if (c =? 92)%N then                           (* \ *)
        parse_loop t' AfterBackslash stack cur
      else if bad then Invalid ErrInvalidUTF8
      else parse_loop t' Normal stack (push (Literal c) cur)
    end
  end.

Definition parse (expr : string) : parse_result :=
  parse_loop (utf8.runes expr) Normal [] (mkFrame [] []).

(** Matching by backtracking.  [bot] says that no byte of the text has
    been consumed (the position is the beginning of the text); the
    continuation [k] receives the position after the match. *)
Definition cont : Type := bool -> string -> bool.

(** Zero or more rounds of [ma].  A round that consumes nothing is not
    repeated: it would lead to the position it started from.  Every
    other round consumes a byte, so [String.length s] rounds suffice. *)
Fixpoint star (ma : bool -> string -> cont -> bool) (n : nat)
         (bot : bool) (s : string) (k : cont) : bool :=
  k bot s ||
  match n with
  | O => false
  | S n' =>
    ma bot s (fun bot' s' =>
                if Nat.ltb (String.length s') (String.length s)
                then star ma n' bot' s' k else false)
  end.

(** One rune of the text satisfying [p]. *)
Definition one_rune (p : N -> bool) (s : string) (k : cont) : bool :=
  match s with
  | EmptyString => false
  | String _ _ =>
    let '(r, w) := utf8.DecodeRuneInString s in
    if p r then k false (drop w s) else false
  end.

Fixpoint m (re : Regexp) : bool -> string -> cont -> bool :=
  match re with
  | EmptyMatch => fun bot s k => k bot s
  | Literal r => fun _ s k => one_rune (N.eqb r) s k
  | AnyCharNotNL => fun _ s k => one_rune (fun r => negb (r =? 10)%N) s k
  | BeginText => fun bot s k => bot && k bot s
  | EndText => fun bot s k =>
                 match s with EmptyString => k bot s | _ => false end
  | Capture sub => m sub
  | Star sub => fun bot s k => star (m sub) (String.length s) bot s k
  | Plus sub => fun bot s k =>
                  m sub bot s (fun bot' s' =>
                                 star (m sub) (String.length s') bot' s' k)
  | Quest sub => fun bot s k => m sub bot s k || k bot s
  | Concat a b => fun bot s k => m a bot s (fun bot' s' => m b bot' s' k)
  | Alternate a b => fun bot s k => m a bot s k || m b bot s k
  end.

(** A match starting at the current position or at a later rune. *)
Fixpoint search (fuel : nat) (re : Regexp) (bot : bool) (s : string) : bool :=
  m re bot s (fun _ _ => true) ||
  match fuel with
  | O => false
  | S fuel' =>
    match s with
    | EmptyString => false
    | String _ _ =>
      search fuel' re false (drop (snd (utf8.DecodeRuneInString s)) s)
    end
  end.

(** [MatchString]: the text contains a match of the expression. *)
Definition MatchString (re : Regexp) (s : string) : bool :=
  search (String.length s) re true s.

(** [Compile] on the part described above.  An expression outside it is
    answered with an error that Go does not have; no property below
    depends on that answer.  The error of an expression that does not
    parse carries the whole expression, as Go's does for a missing
    closing parenthesis; for the other codes Go records the offending
    piece, and no property below depends on that field for them. *)
Definition Compile (expr : string) : result Regexp :=
  match parse expr with
  | Parsed re => Ok re
  | Invalid code => Err (SyntaxError code expr)
  | Unsupported => Err (SyntaxError "outside the modelled syntax" expr)
  end.

End regexp.

(* ================================================================== *)
(** * Vocabulary of the properties *)

(** The one-byte separators of the package, as strings. *)
Definition LF : string := String "010" "".
Definition NUL : string := String "000" "".

(** A line of a cgroup file of the shape [<id>:devices:<path>]: it has at
    least two colons and the text between the first two is exactly
    [devices]. *)
Definition is_devices_line (line : string) : Prop :=
  exists id p, mem ":" id = false /\ line = id ++ ":devices:" ++ p.

(** The first token of a command-line record: the text before the first
    NUL, split at white space and colons. *)
Definition first_token (cmdline : string) : option string :=
  match bytes.SplitN cmdline "000" 2 with
  | [] => None
  | part0 :: _ =>
    match strings.FieldsFunc part0 is_separator with
    | [] => None
    | exe0 :: _ => Some exe0
    end
  end.

(** The pid a directory entry contributes to a scan with [re], if any: the
    entry is a directory, its name is a number, its command-line record
    can be read and has a first token, and [re] matches that token.
    [files] is the content of the file system. *)
Definition matching_pid {Regexp : Type} (MatchString : Regexp -> string -> bool)
           (re : Regexp) (files : string -> result string) (entry : FileInfo)
  : option Z :=
  if IsDir entry then
    match strconv.Atoi (Name entry) with
    | Some pid =>
      match files (filepath.Join ["/proc"; Name entry; "cmdline"]) with
      | Ok cmdline =>
        match first_token cmdline with
        | Some tok => if MatchString re tok then Some pid else None
        | None => None
        end
      | Err _ => None
      end
    | None => None
    end
  else None.

(** The pids of the matching entries, in enumeration order. *)
Definition matching_pids {Regexp : Type} (MatchString : Regexp -> string -> bool)
           (re : Regexp) (files : string -> result string)
           (entries : list FileInfo) : list Z :=
  flat_map (fun e => match matching_pid MatchString re files e with
                     | Some pid => [pid]
                     | None => []
                     end) entries.

(** A [Readdir] result with a nil error. *)
Definition batch (ls : list FileInfo) : ReaddirResult := (ls, None).

(** Two states that differ at most in the calls recorded so far. *)
Definition same_system (w w' : World) : Prop :=
  dir_stream w' = dir_stream w
  /\ file_content w' = file_content w
  /\ kill_outcome w' = kill_outcome w.

(** The messages of the deliveries that fail when [sig] is sent to
    [pids] in order, one per failure, duplicates included. *)
Fixpoint failures (errno_text : Z -> string) (pids : list Z) (sig : Z)
         (w : World) : list string * World :=
  match pids with
  | [] => ([], w)
  | pid :: rest =>
    let '(err, w) := Kill pid sig w in
    let '(msgs, w) := failures errno_text rest sig w in
    match err with
    | Some e => (errno_text e :: msgs, w)
    | None => (msgs, w)
    end
  end.

(** The distinct messages of a list, each at the place of its first
    occurrence. *)
Fixpoint distinct (msgs : list string) : list string :=
  match msgs with
  | [] => []
  | msg :: rest =>
    msg :: filter (fun x => negb (String.eqb x msg)) (distinct rest)
  end.

(** The text [err.Error()] of an error, given [fmt.Sprintf] and the
    errno messages. *)
Fixpoint Error (Sprintf : string -> list string -> string)
         (errno_text : Z -> string) (err : error) : string :=
  match err with
  | EOF => "EOF"
  | ErrNotExist => "file does not exist"
  | Errno e => errno_text e
  | PathError op path e => op ++ " " ++ path ++ ": " ++ Error Sprintf errno_text e
  | SyscallError call e => call ++ ": " ++ Error Sprintf errno_text e
  | SyntaxError code expr => "error parsing regexp: " ++ code ++ ": `" ++ expr ++ "`"
  | Errorf format args => Sprintf format args
  end.

(** A byte with no special meaning in a regular expression: ASCII and not
    one of the characters that [regexp.QuoteMeta] escapes. *)
Definition plain_byte (c : ascii) : bool :=
  (N_of_ascii c <? 128)%N && negb (mem c "\.+*?()|[]{}^$").

(** A name made of such bytes only. *)
Definition plain_name (name : string) : bool := all_bytes plain_byte name.


(** The accumulation of [kill_loop], without the system calls. *)
Fixpoint collect (errmsgs msgs : list string) : list string :=
  match msgs with
  | [] => errmsgs
  | msg :: rest =>
    if seen msg errmsgs then collect errmsgs rest
    else collect (errmsgs ++ [msg])%list rest
  end.

(** An ASCII byte. *)
Definition is_ascii (c : ascii) : bool := (utf8.byte c <? 128)%N.

(** The literals of a name, in order. *)
Definition literals (name : string) : list regexp.Regexp :=
  map (fun c => regexp.Literal (utf8.byte c)) (list_ascii_of_string name).

(** What [(^|/)name$] parses to when [name] is plain. *)
Definition anchored (name : string) : regexp.Regexp :=
  regexp.Concat
    (regexp.Capture (regexp.Alternate regexp.BeginText (regexp.Literal 47)))
    (regexp.seq (literals name ++ [regexp.EndText])%list).


(* ================================================================== *)
(** * Instances for the examples *)

(** [fmt.Sprintf] for a format whose only verbs are [%s] and [%%], with
    string operands ([None] on any other verb).  Operands left over are
    reported the way fmt does. *)
Fixpoint Sprintf_s (format : string) (args : list string) : option string :=
  match format with
  | EmptyString =>
    match args with
    | [] => Some ""
    | _ => Some ("%!(EXTRA "
                 ++ strings.Join (map (fun a => "string=" ++ a) args) ", "
                 ++ ")")
    end
  | String "%" (String "s" t) =>
    match args with
    | a :: rest => option_map (append a) (Sprintf_s t rest)
    | [] => option_map (append "%!s(MISSING)") (Sprintf_s t [])
    end
  | String "%" (String "%" t) => option_map (String "%") (Sprintf_s t args)
  | String "%" _ => None
  | String c t => option_map (String c) (Sprintf_s t args)
  end.

Definition Sprintf_example (format : string) (args : list string) : string :=
  match Sprintf_s format args with
  | Some s => s
  | None => ""
  end.

Definition EPERM : Z := 1.
Definition ESRCH : Z := 3.
Definition EINVAL : Z := 22.

(** The messages of the errno values that kill(2) returns, as in the table
    of package syscall.  No other value occurs in the examples. *)
Definition errno_text_kill (e : Z) : string :=
  if (e =? EPERM)%Z then "operation not permitted"
  else if (e =? ESRCH)%Z then "no such process"
  else if (e =? EINVAL)%Z then "invalid argument"
  else "errno " ++ strconv.Itoa e.

(** A file system given by a list of files; any other file does not
    exist. *)
Fixpoint files_of (fs : list (string * string)) (name : string) : result string :=
  match fs with
  | [] => Err (PathError "open" name (Errno ENOENT))
  | (n, content) :: rest =>
    if String.eqb n name then Ok content else files_of rest name
  end.

(** A system whose /proc is read as [stream], with the files [fs], where
    [kill] fails with the errno [errno_of pid], if any. *)
Definition example_world (stream : result (list ReaddirResult))
           (fs : list (string * string)) (errno_of : Z -> option Z) : World :=
  mkWorld (fun name => if String.eqb name "/proc" then stream
                       else Err (PathError "open" name (Errno ENOENT)))
          (files_of fs)
          (fun _ pid _ => errno_of pid)
          [].

Definition dir (name : string) : FileInfo := mkFileInfo name true.
Definition file (name : string) : FileInfo := mkFileInfo name false.

(** Three processes: 1 runs /usr/sbin/nginx, 2 runs nginx-helper and 3
    runs nginx; the entry 4 has no readable command line. *)
Definition nginx_world : World :=
  example_world
    (Ok [batch [dir "1"; file "uptime"; dir "self"; dir "2"];
         batch [dir "4"; dir "3"]])
    [("/proc/1/cmdline", "/usr/sbin/nginx" ++ NUL ++ "-g" ++ NUL ++ "daemon off;" ++ NUL);
     ("/proc/2/cmdline", "nginx-helper" ++ NUL);
     ("/proc/3/cmdline", "nginx: worker process" ++ NUL)]
    (fun pid => if (pid =? 1)%Z then Some EPERM
                else if (pid =? 2)%Z then Some ESRCH
                else if (pid =? 3)%Z then Some EPERM
                else None).

(** One process, 7, whose command line is [c+]. *)
Definition cplus_world : World :=
  example_world (Ok [batch [dir "7"]])
                [("/proc/7/cmdline", "c+" ++ NUL)]
                (fun _ => None).

(* ================================================================== *)
(** * The calls of a scan *)

(** The calls of the loop body on one directory entry: the command line
    of a directory with a numeric name is read, nothing else is. *)
Definition entry_events (entry : FileInfo) : list Event :=
  if IsDir entry then
    match strconv.Atoi (Name entry) with
    | Some _ => [EvReadFile (filepath.Join ["/proc"; Name entry; "cmdline"])]
    | None => []
    end
  else [].

(** The calls of the loop of [getPids] on a handle: one [Readdir] per
    iteration, the reads of a batch after the [Readdir] that returned it;
    the loop stops at the first [Readdir] with an error, or at the one
    past the end of the handle. *)
Fixpoint handle_events (dirFD : list ReaddirResult) : list Event :=
  match dirFD with
  | [] => [EvReaddir 10]
  | (ls, None) :: rest =>
    (EvReaddir 10 :: flat_map entry_events ls ++ handle_events rest)%list
  | (_, Some _) :: _ => [EvReaddir 10]
  end.

(** The calls of a scan of /proc. *)
Definition scan_events (w : World) : list Event :=
  match dir_stream w "/proc" with
  | Err _ => [EvOpen "/proc"]
  | Ok dirFD => (EvOpen "/proc" :: handle_events dirFD ++ [EvClose])%list
  end.

Definition is_kill (ev : Event) : bool :=
  match ev with
  | EvKill _ _ => true
  | _ => false
  end.

Definition is_open_or_close (ev : Event) : bool :=
  match ev with
  | EvOpen _ | EvClose => true
  | _ => false
  end.


(** The files read by a list of calls, in order. *)
Definition files_read (evs : list Event) : list string :=
  flat_map (fun ev => match ev with EvReadFile name => [name] | _ => [] end)
           evs.

(** A directory whose name is a number. *)
Definition numeric_dir (entry : FileInfo) : bool :=
  IsDir entry && match strconv.Atoi (Name entry) with
                 | Some _ => true
                 | None => false
                 end.

(** An ASCII byte that is not white space. *)
Definition clean_byte (c : ascii) : bool :=
  (utf8.byte c <? 128)%N && negb (unicode.IsSpace (utf8.byte c)).

(** The text starts, and ends, with an ASCII byte that is not white
    space. *)
Definition clean_start (s : string) : bool :=
  match s with
  | EmptyString => false
  | String c _ => clean_byte c
  end.

Fixpoint clean_end (s : string) : bool :=
  match s with
  | EmptyString => false
  | String c EmptyString => clean_byte c
  | String _ t => clean_end t
  end.





(** Three processes named nginx; the second [Readdir] returns the entry 2
    together with end-of-stream, and the handle would return the entry 3
    after that. *)
Definition early_eof_world : World :=
  example_world
    (Ok [batch [dir "1"]; ([dir "2"], Some EOF); batch [dir "3"]])
    [("/proc/1/cmdline", "nginx"); ("/proc/2/cmdline", "nginx");
     ("/proc/3/cmdline", "nginx")]
    (fun _ => None).

(** A system in which the process 4242 belongs to the devices cgroup
    /docker/nginx. *)
Definition cgroup_world : World :=
  example_world
    (Err (PathError "open" "/proc" (Errno 13)))
    [("/proc/4242/cgroup",
      "11:cpu,cpuacct:/docker/nginx" ++ LF ++ "4:devices: /docker/nginx" ++ LF
      ++ "1:name=systemd:/docker/nginx")]
    (fun _ => None).

(** The scan of /proc is cut short: /proc cannot be opened, or, after any
    number of reads that succeed, a read of the directory fails with an
    error other than end-of-stream. *)
Definition aborted_scan (w : World) : Prop :=
  (exists e, dir_stream w "/proc" = Err e)
  \/ (exists batches ls e rest,
         dir_stream w "/proc"
         = Ok (map batch batches ++ (ls, Some e) :: rest)%list
         /\ e <> EOF).

(** A system whose /proc cannot be opened, and one whose /proc is read to
    its end and has no entry. *)
Definition unopenable_world : World :=
  example_world (Err (PathError "open" "/proc" (Errno 13))) [] (fun _ => None).

Definition empty_proc_world : World :=
  example_world (Ok []) [] (fun _ => None).

(** Two matching processes are read, then the next read of the directory
    fails with EIO. *)
Definition failing_read_world : World :=
  example_world
    (Ok [batch [dir "1"; dir "3"]; ([dir "2"], Some (Errno 5))])
    [("/proc/1/cmdline", "nginx"); ("/proc/3/cmdline", "nginx")]
    (fun _ => None).

(* ================================================================== *)
(** * Proof steps *)



(* ================================================================== *)
(** * The definitions at work *)

Module Examples.

Example Split_lines :
  strings.Split ("a:b" ++ LF ++ LF ++ "c") "010" = ["a:b"; ""; "c"].
Proof. reflexivity. Qed.

Example SplitN_three :
  strings.SplitN "4:devices:/docker:/nginx" ":" 3
  = ["4"; "devices"; "/docker:/nginx"].
Proof. reflexivity. Qed.

Example SplitN_empty : bytes.SplitN "" "000" 2 = [""].
Proof. reflexivity. Qed.

Example TrimSpace_both_ends :
  strings.TrimSpace ("  /docker/nginx " ++ LF) = "/docker/nginx".
Proof. reflexivity. Qed.

(** U+00A0, encoded C2 A0, is white space; a stray A0 byte is not. *)
Example TrimSpace_no_break_space :
  strings.TrimSpace ("a" ++ String "194" (String "160" "")) = "a"
  /\ strings.TrimSpace ("a" ++ String "160" " ") = "a" ++ String "160" "".
Proof. split; reflexivity. Qed.

Example Atoi_cases :
  strconv.Atoi "4242" = Some 4242%Z
  /\ strconv.Atoi "+5" = Some 5%Z
  /\ strconv.Atoi "self" = None
  /\ strconv.Atoi "" = None
  /\ strconv.Atoi "9223372036854775808" = None.
Proof. repeat split; reflexivity. Qed.

Example first_token_nginx :
  first_token ("nginx: worker process" ++ NUL) = Some "nginx"
  /\ first_token ("/usr/sbin/nginx" ++ NUL ++ "-g" ++ NUL) = Some "/usr/sbin/nginx"
  /\ first_token "" = None.
Proof. repeat split; reflexivity. Qed.

Example parse_cases :
  regexp.parse "(^|/)nginx$" = regexp.Parsed (anchored "nginx")
  /\ regexp.parse "a**" = regexp.Invalid regexp.ErrInvalidRepeatOp
  /\ regexp.parse "a*?" = regexp.Parsed (regexp.Star (regexp.Literal 97))
  /\ regexp.parse "(a" = regexp.Invalid regexp.ErrMissingParen
  /\ regexp.parse "+" = regexp.Invalid regexp.ErrMissingRepeatArgument
  /\ regexp.parse "[a-z]" = regexp.Unsupported.
Proof. repeat split; reflexivity. Qed.

Example PidOf_nginx :
  fst (PidOf regexp.Compile regexp.MatchString "nginx" nginx_world)
  = (Some [1; 3]%Z, None).
Proof. vm_compute. reflexivity. Qed.

(** The calls of a scan followed by the signals: every readable numeric
    directory is read once, the handle is closed, then 1, 2 and 3 are
    signalled. *)
Example PKill_ngin_trace :
  trace (snd (PKill regexp.Compile regexp.MatchString errno_text_kill
                    "ngin" 15 nginx_world))
  = [EvOpen "/proc"; EvReaddir 10;
     EvReadFile "/proc/1/cmdline"; EvReadFile "/proc/2/cmdline";
     EvReaddir 10;
     EvReadFile "/proc/4/cmdline"; EvReadFile "/proc/3/cmdline";
     EvReaddir 10; EvClose;
     EvKill 1 15; EvKill 2 15; EvKill 3 15].
Proof. vm_compute. reflexivity. Qed.

End Examples.

(* ================================================================== *)
(** * Facts about byte sequences and splitting *)

Lemma append_nil_r (s : string) : s ++ "" = s.
Proof. induction s as [|c s IH]; simpl; [reflexivity | now rewrite IH]. Qed.


Lemma length_append (a b : string) :
  String.length (a ++ b) = String.length a + String.length b.
Proof. induction a as [|x a IH]; simpl; [reflexivity | now rewrite IH]. Qed.

Lemma mem_append (c : ascii) (a b : string) :
  mem c (a ++ b) = mem c a || mem c b.
Proof.
  induction a as [|x a IH]; simpl; [reflexivity|].
  rewrite IH. apply orb_assoc.
Qed.


Lemma drop_append (a b : string) : drop (String.length a) (a ++ b) = b.
Proof. induction a as [|x a IH]; simpl; [reflexivity | exact IH]. Qed.


Module SplitFacts.
Import strings.

Lemma cut_Some (sep : ascii) (s a b : string) :
  cut sep s = Some (a, b) <-> s = a ++ String sep b /\ mem sep a = false.
Proof.
  revert a b. induction s as [|c s IH]; intros a b; simpl.
  - split; [discriminate|]. intros [H _]. destruct a; discriminate.
  - destruct (Ascii.eqb_spec c sep) as [->|Hne].
    + split.
      * intros [= <- <-]. now split.
      * intros [H Hm]. destruct a as [|x a]; simpl in *.
        -- now injection H as ->.
        -- injection H as <- _. now rewrite Ascii.eqb_refl in Hm.
    + destruct (cut sep s) as [[a' b']|] eqn:E.
      * split.
        -- intros [= <- <-]. destruct (proj1 (IH a' b') eq_refl) as [-> Hm].
           split; [reflexivity|]. simpl.
           destruct (Ascii.eqb_spec c sep); [contradiction | exact Hm].
        -- intros [H Hm]. destruct a as [|x a]; simpl in *.
           ++ injection H as -> _. contradiction.
           ++ injection H as <- H. apply orb_false_iff in Hm as [_ Hm].
               assert (Some (a', b') = Some (a, b)) as [= -> ->]
                 by (apply IH; now split).
               reflexivity.
      * split; [discriminate|]. intros [H Hm].
        destruct a as [|x a]; simpl in *.
        -- injection H as -> _. contradiction.
        -- injection H as <- H. apply orb_false_iff in Hm as [_ Hm].
           assert (None = Some (a, b)) by (apply IH; now split).
           discriminate.
Qed.

Lemma cut_None (sep : ascii) (s : string) :
  cut sep s = None <-> mem sep s = false.
Proof.
  induction s as [|c s IH]; simpl; [tauto|].
  destruct (Ascii.eqb_spec c sep) as [->|Hne]; simpl.
  - split; discriminate.
  - destruct (cut sep s) as [[a b]|].
    + split; [discriminate|]. intros H. apply IH in H. discriminate.
    + split; [intros _; now apply IH | reflexivity].
Qed.

Lemma Split_pieces (s : string) (sep : ascii) :
  Split s sep = pieces (S (String.length s)) sep s.
Proof. reflexivity. Qed.

Lemma SplitN_pieces (s : string) (sep : ascii) (n : nat) :
  0 < n -> SplitN s sep (Z.of_nat n) = pieces n sep s.
Proof.
  intros Hn. unfold SplitN.
  destruct (Z.eqb_spec (Z.of_nat n) 0); [lia|].
  destruct (Z.ltb_spec (Z.of_nat n) 0); [lia|].
  now rewrite Nat2Z.id.
Qed.

Lemma pieces_SS (sep : ascii) (n : nat) (s : string) :
  pieces (S (S n)) sep s =
  match cut sep s with
  | None => [s]
  | Some (a, b) => a :: pieces (S n) sep b
  end.
Proof. reflexivity. Qed.

(** Splitting into at most three pieces gives exactly three with a given
    middle one when, and only when, the text has the shape
    [a ++ sep ++ m ++ sep ++ c] with no separator in [a] or [m]. *)
Lemma pieces3 (sep : ascii) (s a m c : string) :
  pieces 3 sep s = [a; m; c]
  <-> s = a ++ String sep (m ++ String sep c)
      /\ mem sep a = false /\ mem sep m = false.
Proof.
  simpl. split.
  - destruct (cut sep s) as [[a' b']|] eqn:E1; [|discriminate].
    destruct (cut sep b') as [[m' c']|] eqn:E2; [|discriminate].
    intros [= -> -> ->].
    apply cut_Some in E1 as [-> Ha]. apply cut_Some in E2 as [-> Hm].
    now repeat split.
  - intros (-> & Ha & Hm).
    assert (E1 : cut sep (a ++ String sep (m ++ String sep c))
                 = Some (a, m ++ String sep c)) by (apply cut_Some; now split).
    assert (E2 : cut sep (m ++ String sep c) = Some (m, c))
      by (apply cut_Some; now split).
    now rewrite E1, E2.
Qed.

Lemma pieces3_length (sep : ascii) (s : string) :
  List.length (pieces 3 sep s) = 3 ->
  exists a m c, pieces 3 sep s = [a; m; c].
Proof.
  simpl.
  destruct (cut sep s) as [[a b]|]; [|discriminate].
  destruct (cut sep b) as [[m c]|]; [|discriminate].
  intros _. now exists a, m, c.
Qed.

(** With enough pieces allowed, splitting undoes joining. *)
Lemma pieces_Join (sep : ascii) (lines : list string) :
  lines <> [] ->
  (forall l, In l lines -> mem sep l = false) ->
  forall n, List.length lines <= n ->
  pieces n sep (Join lines (String sep "")) = lines.
Proof.
  induction lines as [|l rest IH]; [congruence|].
  intros _ Hfree n Hn.
  destruct rest as [|l' rest'].
  - simpl in *. destruct n as [|[|n]]; [lia | reflexivity |].
    assert (E : cut sep l = None) by (apply cut_None, Hfree; now left).
    rewrite pieces_SS. now rewrite E.
  - destruct n as [|[|n]]; [simpl in Hn; lia | simpl in Hn; lia |].
    change (Join (l :: l' :: rest') (String sep ""))
      with (l ++ String sep "" ++ Join (l' :: rest') (String sep "")).
    assert (E : cut sep (l ++ String sep "" ++ Join (l' :: rest') (String sep ""))
                = Some (l, Join (l' :: rest') (String sep "")))
      by (apply cut_Some; split; [reflexivity | apply Hfree; now left]).
    rewrite pieces_SS, E. f_equal.
    apply IH; [discriminate | intros x Hx; apply Hfree; now right |].
    simpl in *. lia.
Qed.

Lemma Join_length (lines : list string) (sep : ascii) :
  List.length lines <= S (String.length (Join lines (String sep ""))).
Proof.
  induction lines as [|l [|l' rest] IH]; [simpl; lia | simpl; lia |].
  change (Join (l :: l' :: rest) (String sep ""))
    with (l ++ String sep "" ++ Join (l' :: rest) (String sep "")).
  rewrite length_append. simpl in *. lia.
Qed.

Lemma Split_Join (sep : ascii) (lines : list string) :
  lines <> [] ->
  (forall l, In l lines -> mem sep l = false) ->
  Split (Join lines (String sep "")) sep = lines.
Proof.
  intros Hne Hfree. rewrite Split_pieces.
  apply pieces_Join; auto. apply Join_length.
Qed.

(** The pieces joined again are the text, whatever the bound. *)
Lemma Join_pieces (sep : ascii) (n : nat) (s : string) :
  0 < n -> Join (pieces n sep s) (String sep "") = s.
Proof.
  revert s. induction n as [|n IH]; intros s Hn; [lia|].
  destruct n as [|n]; [reflexivity|].
  rewrite pieces_SS. destruct (cut sep s) as [[a b]|] eqn:E; [|reflexivity].
  apply cut_Some in E as [-> _].
  specialize (IH b ltac:(lia)).
  destruct (pieces (S n) sep b) as [|p ps] eqn:Ep.
  - destruct n; simpl in Ep; [discriminate|].
    destruct (cut sep b) as [[? ?]|]; discriminate.
  - change (Join (a :: p :: ps) (String sep ""))
      with (a ++ String sep "" ++ Join (p :: ps) (String sep "")).
    now rewrite IH.
Qed.

Lemma Join_Split (sep : ascii) (s : string) :
  Join (Split s sep) (String sep "") = s.
Proof. rewrite Split_pieces. apply Join_pieces. lia. Qed.

End SplitFacts.

(* ================================================================== *)
(** * Container name from the cgroup file *)

Module CgroupFacts.
Import strings SplitFacts.

(** The test of the loop body succeeds exactly on the devices lines. *)
Lemma devices_test (line : string) :
  Nat.eqb (List.length (SplitN line ":" 3)) 3
  && String.eqb (nth 1 (SplitN line ":" 3) "") "devices" = true
  <-> is_devices_line line.
Proof.
  change (SplitN line ":" 3) with (pieces 3 ":" line). split.
  - intros H. apply andb_true_iff in H as [Hl Hm].
    apply Nat.eqb_eq, pieces3_length in Hl as (a & m & c & E).
    rewrite E in Hm. simpl in Hm. apply String.eqb_eq in Hm. subst m.
    apply pieces3 in E as (-> & Ha & _). now exists a, c.
  - intros (a & c & Ha & ->).
    assert (E : pieces 3 ":" (a ++ ":devices:" ++ c) = [a; "devices"; c])
      by (apply pieces3; repeat split; assumption).
    now rewrite E.
Qed.

Lemma devices_line_none (lines : list string) :
  (forall l, In l lines -> ~ is_devices_line l) ->
  devices_line lines
  = ("", Some (Errorf "could not find devices cgroup location" [])).
Proof.
  induction lines as [|line rest IH]; intros H; [reflexivity|].
  cbn [devices_line].
  destruct (Nat.eqb (List.length (SplitN line ":" 3)) 3
            && String.eqb (nth 1 (SplitN line ":" 3) "") "devices") eqn:T.
  - exfalso. apply (H line); [now left | now apply devices_test].
  - apply IH. intros l Hl. apply H. now right.
Qed.

Lemma devices_line_skip (before rest : list string) :
  (forall l, In l before -> ~ is_devices_line l) ->
  devices_line (before ++ rest) = devices_line rest.
Proof.
  induction before as [|line before IH]; intros H; [reflexivity|].
  cbn [devices_line app].
  destruct (Nat.eqb (List.length (SplitN line ":" 3)) 3
            && String.eqb (nth 1 (SplitN line ":" 3) "") "devices") eqn:T.
  - exfalso. apply (H line); [now left | now apply devices_test].
  - apply IH. intros l Hl. apply H. now right.
Qed.

Lemma devices_line_first (id p : string) (rest : list string) :
  mem ":" id = false ->
  devices_line ((id ++ ":devices:" ++ p) :: rest) = (TrimSpace p, None).
Proof.
  intros Hid. cbn [devices_line].
  change (SplitN (id ++ ":devices:" ++ p) ":" 3)
    with (pieces 3 ":" (id ++ ":devices:" ++ p)).
  assert (E : pieces 3 ":" (id ++ ":devices:" ++ p) = [id; "devices"; p])
    by (apply pieces3; repeat split; assumption).
  now rewrite E.
Qed.

End CgroupFacts.

(** C9.  A cgroup text none of whose lines has the shape
    [<id>:devices:<path>] (three colon-separated fields, the middle one
    exactly [devices]) is rejected with the error created from the
    message "could not find devices cgroup location"; a line naming
    [devices] only inside a comma-separated list is not such a line. *)
Theorem cgroup_parse_failure :
  (forall content : string,
      (forall line, In line (strings.Split content "010") ->
                    ~ is_devices_line line) ->
      containerNameFromProcCgroup content
      = ("", Some (Errorf "could not find devices cgroup location" [])))
  /\ containerNameFromProcCgroup "4:cpu,devices:/docker/nginx"
     = ("", Some (Errorf "could not find devices cgroup location" [])).
Proof.
  split.
  - intros content H. unfold containerNameFromProcCgroup.
    now apply CgroupFacts.devices_line_none.
  - reflexivity.
Qed.

Lemma cgroup_parse_failure_witness :
  containerNameFromProcCgroup ("2:freezer:docker/kubelet" ++ LF ++ "5:cpuacct:pkg/kubectl")
  = ("", Some (Errorf "could not find devices cgroup location" [])).
Proof.
  apply (proj1 cgroup_parse_failure).
  intros line Hin Hd. apply CgroupFacts.devices_test in Hd.
  vm_compute in Hin.
  destruct Hin as [<- | [<- | []]]; vm_compute in Hd; discriminate.
Defined.

(** C3.  On a cgroup text whose first devices line is
    [4:devices:/docker/nginx] the parse succeeds and returns the third
    field with surrounding white space trimmed and nothing else removed:
    [/docker/nginx], leading slash included, and not [docker/nginx].  So
    it is on the text made of that line alone. *)
Theorem cgroup_parse_keeps_leading_slash :
  (forall before after : list string,
      (forall l, In l (before ++ after) -> mem "010" l = false) ->
      (forall l, In l before -> ~ is_devices_line l) ->
      containerNameFromProcCgroup
        (strings.Join (before ++ "4:devices:/docker/nginx" :: after) LF)
      = ("/docker/nginx", None))
  /\ containerNameFromProcCgroup "4:devices:/docker/nginx"
     = ("/docker/nginx", None)
  /\ "/docker/nginx" <> "docker/nginx".
Proof.
  split; [|split; [reflexivity | discriminate]].
  intros before after Hfree Hno.
  unfold containerNameFromProcCgroup, LF.
  rewrite SplitFacts.Split_Join.
  - rewrite CgroupFacts.devices_line_skip by assumption.
    now rewrite (CgroupFacts.devices_line_first "4" "/docker/nginx").
  - now destruct before.
  - intros l Hl. apply in_app_or in Hl as [Hl | [<- | Hl]].
    + apply Hfree, in_or_app. now left.
    + reflexivity.
    + apply Hfree, in_or_app. now right.
Qed.

Lemma cgroup_parse_keeps_leading_slash_witness :
  containerNameFromProcCgroup
    ("11:cpu,cpuacct:/docker/nginx" ++ LF ++ "4:devices:/docker/nginx" ++ LF
     ++ "3:devices:/other")
  = ("/docker/nginx", None).
Proof.
  apply (proj1 cgroup_parse_keeps_leading_slash
           ["11:cpu,cpuacct:/docker/nginx"] ["3:devices:/other"]).
  - intros l [<- | [<- | []]]; reflexivity.
  - intros l [<- | []] Hd. apply CgroupFacts.devices_test in Hd.
    vm_compute in Hd. discriminate.
Defined.

(* ================================================================== *)
(** * The scan *)

Module ScanFacts.
Local Open Scope list_scope.

Lemma same_system_refl (w : World) : same_system w w.
Proof. now repeat split. Qed.

Lemma same_system_trans (w1 w2 w3 : World) :
  same_system w1 w2 -> same_system w2 w3 -> same_system w1 w3.
Proof.
  intros (A & B & C) (A' & B' & C'). repeat split; congruence.
Qed.

Lemma same_system_record (ev : Event) (w : World) : same_system w (record ev w).
Proof. now repeat split. Qed.

Create HintDb scan.
#[local] Hint Resolve same_system_refl same_system_record : scan.

Section WithRegexp.
Variable Regexp : Type.
Variable MatchString : Regexp -> string -> bool.
Variable re : Regexp.

Local Abbreviation pid_of w := (matching_pid MatchString re (file_content w)).
Local Abbreviation pids_of w := (matching_pids MatchString re (file_content w)).

(** One iteration appends the pid of the entry, if it has one, and
    leaves the system as it was. *)
Lemma scan_entry_spec (entry : FileInfo) (pids : list Z) (w : World) :
  fst (scan_entry MatchString re entry pids w)
  = (pids ++ match pid_of w entry with Some p => [p] | None => [] end)%list
  /\ same_system w (snd (scan_entry MatchString re entry pids w)).
Proof.
  unfold scan_entry, matching_pid, first_token.
  destruct (IsDir entry); simpl;
    [|rewrite app_nil_r; auto with scan].
  destruct (strconv.Atoi (Name entry)) as [pid|];
    [|rewrite app_nil_r; auto with scan].
  unfold ReadFile.
  destruct (file_content w _) as [cmdline|err]; simpl;
    [|rewrite app_nil_r; auto with scan].
  destruct (bytes.SplitN cmdline "000" 2) as [|part0 parts]; simpl;
    [rewrite app_nil_r; auto with scan|].
  destruct (strings.FieldsFunc part0 is_separator) as [|exe0 exe]; simpl;
    [rewrite app_nil_r; auto with scan|].
  destruct (MatchString re exe0); simpl;
    [|rewrite app_nil_r]; auto with scan.
Qed.

Lemma scan_batch_spec (ls : list FileInfo) (pids : list Z) (w : World) :
  fst (scan_batch MatchString re ls pids w) = (pids ++ pids_of w ls)%list
  /\ same_system w (snd (scan_batch MatchString re ls pids w)).
Proof.
  revert pids w. induction ls as [|entry rest IH]; intros pids w.
  - simpl. rewrite app_nil_r. auto with scan.
  - cbn [scan_batch].
    destruct (scan_entry_spec entry pids w) as [E S].
    destruct (scan_entry MatchString re entry pids w) as [pids1 w1].
    simpl in E, S. subst pids1.
    destruct (IH (pids ++ match pid_of w entry with
                           | Some p => [p] | None => [] end)%list w1)
      as [E' S'].
    split.
    + rewrite E'. unfold matching_pids. simpl.
      destruct S as (_ & -> & _). now rewrite <- app_assoc.
    + eapply same_system_trans; eauto.
Qed.

Lemma readdir_loop_ok (ls : list FileInfo) (rest : list ReaddirResult)
      (pids : list Z) (w : World) :
  readdir_loop MatchString re ((ls, None) :: rest) pids w
  = readdir_loop MatchString re rest
      (fst (scan_batch MatchString re ls pids (record (EvReaddir 10) w)))
      (snd (scan_batch MatchString re ls pids (record (EvReaddir 10) w))).
Proof.
  cbn [readdir_loop Readdir].
  now destruct (scan_batch MatchString re ls pids _).
Qed.

(** The loop over a handle whose first reads all succeed: the pids of
    the entries read are appended, and the loop goes on with the rest
    of the handle. *)
Lemma readdir_loop_batches (batches : list (list FileInfo))
      (rest : list ReaddirResult) (pids : list Z) (w : World) :
  exists w',
    same_system w w'
    /\ readdir_loop MatchString re (map batch batches ++ rest) pids w
       = readdir_loop MatchString re rest
                      (pids ++ pids_of w (concat batches))%list w'.
Proof.
  revert pids w. induction batches as [|ls batches IH]; intros pids w.
  - exists w. simpl. rewrite app_nil_r. auto with scan.
  - change (map batch (ls :: batches) ++ rest)%list
      with ((ls, @None error) :: (map batch batches ++ rest))%list.
    rewrite readdir_loop_ok.
    destruct (scan_batch_spec ls pids (record (EvReaddir 10) w)) as [E S].
    rewrite E.
    destruct (IH (pids ++ pids_of (record (EvReaddir 10) w) ls)%list
                 (snd (scan_batch MatchString re ls pids
                                  (record (EvReaddir 10) w))))
      as (w' & S' & E').
    exists w'. split.
    + eapply same_system_trans; [apply same_system_record|].
      eapply same_system_trans; eauto.
    + rewrite E'. f_equal.
      destruct S as (_ & -> & _). simpl.
      unfold matching_pids. now rewrite flat_map_app, app_assoc.
Qed.

(** The loop ends normally at the end of the directory. *)
Lemma readdir_loop_end (rest : list ReaddirResult) (pids : list Z) (w : World) :
  rest = [] \/ (exists ls rest', rest = (ls, Some EOF) :: rest') ->
  fst (readdir_loop MatchString re rest pids w) = Some pids.
Proof. intros [-> | (ls & rest' & ->)]; reflexivity. Qed.

(** The loop gives up at a read that fails. *)
Lemma readdir_loop_fail (ls : list FileInfo) (e : error)
      (rest : list ReaddirResult) (pids : list Z) (w : World) :
  e <> EOF ->
  fst (readdir_loop MatchString re ((ls, Some e) :: rest) pids w) = None.
Proof. intros He. destruct e; simpl; congruence. Qed.

(** The pids returned are those of the matching entries. *)
Lemma In_matching_pids (files : string -> result string)
      (entries : list FileInfo) (pid : Z) :
  In pid (matching_pids MatchString re files entries)
  <-> exists entry cmdline tok,
      In entry entries
      /\ IsDir entry = true
      /\ strconv.Atoi (Name entry) = Some pid
      /\ files (filepath.Join ["/proc"; Name entry; "cmdline"]%string)
         = Ok cmdline
      /\ first_token cmdline = Some tok
      /\ MatchString re tok = true.
Proof.
  unfold matching_pids. rewrite in_flat_map. split.
  - intros (entry & Hin & H). unfold matching_pid in H.
    destruct (IsDir entry) eqn:Hdir; [|destruct H].
    destruct (strconv.Atoi (Name entry)) as [p|] eqn:Hp; [|destruct H].
    destruct (files _) as [cmdline|] eqn:Hread; [|destruct H].
    destruct (first_token cmdline) as [tok|] eqn:Htok; [|destruct H].
    destruct (MatchString re tok) eqn:Hm; [|destruct H].
    destruct H as [<- | []]. now exists entry, cmdline, tok.
  - intros (entry & cmdline & tok & Hin & Hdir & Hp & Hread & Htok & Hm).
    exists entry. split; [exact Hin|].
    unfold matching_pid. rewrite Hdir, Hp, Hread, Htok, Hm. now left.
Qed.

Lemma getPids_unfold (w : World) :
  fst (getPids MatchString re w)
  = match dir_stream w "/proc" with
    | Err _ => None
    | Ok dirFD =>
      fst (readdir_loop MatchString re dirFD [] (record (EvOpen "/proc") w))
    end.
Proof.
  unfold getPids, Open.
  destruct (dir_stream w "/proc") as [dirFD|e]; [|reflexivity].
  now destruct (readdir_loop MatchString re dirFD [] _).
Qed.

(** A scan that is not cut short returns the matching pids. *)
Lemma getPids_complete (batches : list (list FileInfo))
      (rest : list ReaddirResult) (w : World) :
  dir_stream w "/proc" = Ok (map batch batches ++ rest) ->
  rest = [] \/ (exists ls rest', rest = (ls, Some EOF) :: rest') ->
  fst (getPids MatchString re w) = Some (pids_of w (concat batches)).
Proof.
  intros Hd Hrest. rewrite getPids_unfold, Hd.
  destruct (readdir_loop_batches batches rest [] (record (EvOpen "/proc") w))
    as (w' & _ & ->).
  now rewrite readdir_loop_end.
Qed.

(** A scan whose directory read fails returns nil. *)
Lemma getPids_abort (batches : list (list FileInfo)) (ls : list FileInfo)
      (e : error) (rest : list ReaddirResult) (w : World) :
  dir_stream w "/proc" = Ok (map batch batches ++ (ls, Some e) :: rest) ->
  e <> EOF ->
  fst (getPids MatchString re w) = None.
Proof.
  intros Hd He. rewrite getPids_unfold, Hd.
  destruct (readdir_loop_batches batches ((ls, Some e) :: rest) []
                                 (record (EvOpen "/proc") w))
    as (w' & _ & ->).
  now apply readdir_loop_fail.
Qed.


Lemma getPids_same_system (w : World) :
  same_system w (snd (getPids MatchString re w)).
Proof.
  unfold getPids, Open.
  destruct (dir_stream w "/proc") as [dirFD|e]; simpl; [|auto with scan].
  assert (H : forall d pids w0,
             same_system w0 (snd (readdir_loop MatchString re d pids w0))).
  { induction d as [|[ls [err|]] d IH]; intros pids w0; simpl.
    - auto with scan.
    - destruct err; simpl; auto with scan.
    - destruct (scan_batch_spec ls pids (record (EvReaddir 10) w0)) as [_ S].
      destruct (scan_batch MatchString re ls pids _) as [pids1 w1].
      simpl in S.
      eapply same_system_trans; [apply same_system_record|].
      eapply same_system_trans; [exact S | apply IH]. }
  specialize (H dirFD [] (record (EvOpen "/proc") w)).
  destruct (readdir_loop MatchString re dirFD [] _) as [pids w1].
  simpl in *.
  eapply same_system_trans; [apply same_system_record|].
  eapply same_system_trans; [exact H | apply same_system_record].
Qed.

End WithRegexp.

End ScanFacts.

(* ================================================================== *)
(** * Paths *)

Module PathFacts.

Lemma Itoa_nonempty (i : Z) : strconv.Itoa i <> "".
Proof.
  unfold strconv.Itoa. destruct (Z.to_int i) as [d|d]; simpl; [|discriminate].
  destruct d; simpl; discriminate.
Qed.

Lemma Join3 (a b c : string) :
  a <> "" -> b <> "" -> c <> "" ->
  path.Join [a; b; c] = a ++ "/" ++ b ++ "/" ++ c.
Proof.
  intros Ha Hb Hc. unfold path.Join. simpl.
  destruct (String.eqb_spec a ""); [contradiction|].
  destruct (String.eqb_spec b ""); [contradiction|].
  destruct (String.eqb_spec c ""); [contradiction|].
  reflexivity.
Qed.

Lemma cgroup_path (pid : Z) :
  path.Join ["/proc"; strconv.Itoa pid; "cgroup"]
  = "/proc/" ++ strconv.Itoa pid ++ "/cgroup".
Proof.
  rewrite Join3; [reflexivity | discriminate | apply Itoa_nonempty | discriminate].
Qed.

End PathFacts.

(** C8.  When the cgroup file of the pid cannot be read,
    [GetFullContainerName] returns [os.ErrNotExist] if the failure says
    that the file does not exist, and otherwise the error of the read
    itself, which is then not [os.ErrNotExist]. *)
Theorem container_name_read_failure :
  forall (pid : Z) (w : World) (err : error),
    file_content w ("/proc/" ++ strconv.Itoa pid ++ "/cgroup") = Err err ->
    (os.IsNotExist err = true ->
     fst (GetFullContainerName pid w) = ("", Some ErrNotExist))
    /\ (os.IsNotExist err = false ->
        fst (GetFullContainerName pid w) = ("", Some err)
        /\ err <> ErrNotExist).
Proof.
  intros pid w err Hread.
  unfold GetFullContainerName, ReadFile.
  rewrite PathFacts.cgroup_path, Hread.
  split; intros Hne; rewrite Hne; [reflexivity|].
  split; [reflexivity|]. intros ->. discriminate.
Qed.

Lemma container_name_read_failure_witness :
  fst (GetFullContainerName 4242 nginx_world) = ("", Some ErrNotExist).
Proof.
  apply (container_name_read_failure 4242 nginx_world
           (PathError "open" "/proc/4242/cgroup" (Errno ENOENT)));
    reflexivity.
Defined.

(* ================================================================== *)
(** * PidOf and PKill *)

Module KillFacts.
Local Open Scope list_scope.

Lemma seen_In (msg : string) (errmsgs : list string) :
  seen msg errmsgs = true <-> In msg errmsgs.
Proof.
  induction errmsgs as [|item rest IH]; simpl; [split; [discriminate|tauto]|].
  destruct (String.eqb_spec item msg) as [->|Hne].
  - split; auto.
  - rewrite IH. split; [auto | intros [H|H]]; [contradiction | exact H].
Qed.

Local Abbreviation unseen errmsgs := (fun x => negb (seen x errmsgs)).
Local Abbreviation other msg := (fun x => negb (String.eqb x msg)).

Lemma filter_filter_comm {A} (p q : A -> bool) (l : list A) :
  filter p (filter q l) = filter q (filter p l).
Proof.
  induction l as [|x l IH]; [reflexivity|]. simpl.
  destruct (p x) eqn:P, (q x) eqn:Q; simpl; rewrite ?P, ?Q, IH; reflexivity.
Qed.

Lemma filter_absorb {A} (p q : A -> bool) (l : list A) :
  (forall x, p x = true -> q x = true) ->
  filter p (filter q l) = filter p l.
Proof.
  intros H. induction l as [|x l IH]; [reflexivity|]. simpl.
  destruct (q x) eqn:Q; simpl.
  - now rewrite IH.
  - destruct (p x) eqn:P; [|exact IH]. apply H in P. congruence.
Qed.

Lemma distinct_filter (p : string -> bool) (msgs : list string) :
  distinct (filter p msgs) = filter p (distinct msgs).
Proof.
  induction msgs as [|msg rest IH]; [reflexivity|]. simpl.
  destruct (p msg) eqn:P; simpl.
  - rewrite IH. f_equal. apply filter_filter_comm.
  - rewrite IH. symmetry. apply filter_absorb.
    intros x Hx. destruct (String.eqb_spec x msg) as [->|]; [congruence|reflexivity].
Qed.

Lemma seen_app (msg : string) (a b : list string) :
  seen msg (a ++ b) = seen msg a || seen msg b.
Proof.
  induction a as [|x a IH]; [reflexivity|]. simpl.
  now destruct (String.eqb x msg).
Qed.

Lemma filter_unseen_app (errmsgs : list string) (msg : string)
      (msgs : list string) :
  filter (unseen (errmsgs ++ [msg])) msgs
  = filter (other msg) (filter (unseen errmsgs) msgs).
Proof.
  induction msgs as [|x l IH]; [reflexivity|]. cbn [filter].
  rewrite seen_app. cbn [seen]. rewrite (String.eqb_sym msg x).
  destruct (seen x errmsgs); cbn [negb orb filter]; [exact IH|].
  destruct (String.eqb x msg); cbn [negb]; now rewrite IH.
Qed.

(** The loop keeps the first occurrence of every message. *)
Lemma collect_distinct (errmsgs msgs : list string) :
  collect errmsgs msgs = errmsgs ++ distinct (filter (unseen errmsgs) msgs).
Proof.
  revert errmsgs. induction msgs as [|msg rest IH]; intros errmsgs.
  - simpl. now rewrite app_nil_r.
  - cbn [collect filter]. destruct (seen msg errmsgs) eqn:S; cbn [negb].
    + apply IH.
    + rewrite IH, <- app_assoc. cbn [app distinct]. do 2 f_equal.
      rewrite <- distinct_filter. f_equal. apply filter_unseen_app.
Qed.

Lemma distinct_In (msg : string) (msgs : list string) :
  In msg (distinct msgs) <-> In msg msgs.
Proof.
  induction msgs as [|x rest IH]; simpl; [tauto|].
  rewrite filter_In, IH.
  destruct (String.eqb_spec msg x) as [->|Hne]; simpl.
  - split; auto.
  - split.
    + intros [H|[H _]]; auto.
    + intros [H|H]; [now left | right; now split].
Qed.

Lemma distinct_NoDup (msgs : list string) : NoDup (distinct msgs).
Proof.
  induction msgs as [|x rest IH]; simpl; constructor.
  - rewrite filter_In. intros [_ H]. now rewrite String.eqb_refl in H.
  - now apply NoDup_filter.
Qed.

Section WithPackages.
Variable Regexp : Type.
Variable Compile : string -> result Regexp.
Variable MatchString : Regexp -> string -> bool.
Variable errno_text : Z -> string.

Lemma nonempty_length (name : string) :
  name <> ""%string -> Nat.eqb (String.length name) 0 = false.
Proof. destruct name; [congruence | reflexivity]. Qed.

Lemma PidOf_compiled (name : string) (re : Regexp) (w : World) :
  name <> ""%string ->
  Compile ("(^|/)" ++ name ++ "$")%string = Ok re ->
  PidOf Compile MatchString name w
  = ((fst (getPids MatchString re w), None), snd (getPids MatchString re w)).
Proof.
  intros Hne Hc. unfold PidOf. rewrite (nonempty_length _ Hne), Hc.
  now destruct (getPids MatchString re w).
Qed.

Lemma PKill_no_pids (name : string) (sig : Z) (re : Regexp) (w : World) :
  name <> ""%string ->
  Compile name = Ok re ->
  len (fst (getPids MatchString re w)) = 0 ->
  fst (PKill Compile MatchString errno_text name sig w)
  = Some (Errorf "unable to fetch pids for process name : %q" [name]).
Proof.
  intros Hne Hc Hl. unfold PKill. rewrite (nonempty_length _ Hne), Hc.
  destruct (getPids MatchString re w) as [pids w1]. simpl in Hl.
  now rewrite Hl.
Qed.

Lemma kill_loop_collect (pids : list Z) (sig : Z) (errmsgs : list string)
      (w : World) :
  kill_loop errno_text pids sig errmsgs w
  = (collect errmsgs (fst (failures errno_text pids sig w)),
     snd (failures errno_text pids sig w)).
Proof.
  revert errmsgs w. induction pids as [|pid rest IH]; intros errmsgs w.
  - reflexivity.
  - cbn [kill_loop failures]. unfold Kill.
    specialize (IH errmsgs (record (EvKill pid sig) w)) as IH1.
    destruct (kill_outcome w (trace w) pid sig) as [e|].
    + specialize (IH (errmsgs ++ [errno_text e]) (record (EvKill pid sig) w))
        as IH2.
      destruct (failures errno_text rest sig (record (EvKill pid sig) w))
        as [msgs w1].
      cbn [fst snd collect] in *.
      now destruct (seen (errno_text e) errmsgs).
    + now destruct (failures errno_text rest sig (record (EvKill pid sig) w)).
Qed.

Lemma kill_loop_distinct (pids : list Z) (sig : Z) (w : World) :
  fst (kill_loop errno_text pids sig [] w)
  = distinct (fst (failures errno_text pids sig w)).
Proof.
  rewrite kill_loop_collect, collect_distinct. simpl.
  f_equal. induction (fst (failures errno_text pids sig w)); simpl; congruence.
Qed.

(** The result of [PKill] once the scan has found pids. *)
Lemma PKill_result (name : string) (sig : Z) (re : Regexp) (w : World) :
  name <> ""%string ->
  Compile name = Ok re ->
  len (fst (getPids MatchString re w)) <> 0 ->
  fst (PKill Compile MatchString errno_text name sig w)
  = match distinct (fst (failures errno_text
                                  (elements (fst (getPids MatchString re w)))
                                  sig (snd (getPids MatchString re w)))) with
    | [] => None
    | [msg] => Some (Errorf msg [])
    | msgs => Some (Errorf "[ %s ]" [strings.Join msgs ","])
    end.
Proof.
  intros Hne Hc Hl. unfold PKill. rewrite (nonempty_length _ Hne), Hc.
  destruct (getPids MatchString re w) as [pids w1]. cbn [fst snd] in *.
  apply Nat.eqb_neq in Hl. rewrite Hl.
  pose proof (kill_loop_distinct (elements pids) sig w1) as E.
  destruct (kill_loop errno_text (elements pids) sig [] w1) as [errmsgs w2].
  cbn [fst] in E. rewrite <- E.
  destruct errmsgs as [|m1 [|m2 ms]]; reflexivity.
Qed.

End WithPackages.

End KillFacts.

(* ================================================================== *)
(** * Properties of the scan and of the two operations *)

Module AbortFacts.
Local Open Scope list_scope.

(** A handle is a run of reads that succeed, followed by nothing or by a
    read with an error. *)
Lemma handle_shape (dirFD : list ReaddirResult) :
  (exists batches, dirFD = map batch batches)
  \/ (exists batches ls e rest,
         dirFD = map batch batches ++ (ls, Some e) :: rest).
Proof.
  induction dirFD as [|[ls [e|]] rest IH].
  - left. now exists [].
  - right. now exists [], ls, e, rest.
  - destruct IH as [[batches ->] | (batches & ls' & e & rest' & ->)].
    + left. now exists (ls :: batches).
    + right. now exists (ls :: batches), ls', e, rest'.
Qed.

Lemma getPids_nil_aborted (Regexp : Type)
      (MatchString : Regexp -> string -> bool) (re : Regexp) (w : World) :
  fst (getPids MatchString re w) = None -> aborted_scan w.
Proof.
  intros Hnil. unfold aborted_scan.
  destruct (dir_stream w "/proc") as [dirFD|e0] eqn:Hd; [|left; now exists e0].
  right.
  destruct (handle_shape dirFD) as [[batches ->] | (batches & ls & e & rest & ->)].
  - rewrite (ScanFacts.getPids_complete _ MatchString re batches [] w)
      in Hnil; [discriminate | now rewrite app_nil_r | now left].
  - exists batches, ls, e, rest. split; [reflexivity|].
    intros ->.
    rewrite (ScanFacts.getPids_complete _ MatchString re batches
               ((ls, Some EOF) :: rest) w Hd) in Hnil; [discriminate|].
    right. now exists ls, rest.
Qed.

Lemma aborted_getPids_nil (Regexp : Type)
      (MatchString : Regexp -> string -> bool) (re : Regexp) (w : World) :
  aborted_scan w -> fst (getPids MatchString re w) = None.
Proof.
  intros [[e He] | (batches & ls & e & rest & Hd & He)].
  - now rewrite ScanFacts.getPids_unfold, He.
  - eapply ScanFacts.getPids_abort; eauto.
Qed.

End AbortFacts.

(** C4 (amended).  When /proc cannot be opened, and when a read of the
    directory fails with an error other than end-of-stream, however many
    reads succeeded and whatever was matched before, [getPids] returns
    nil: a slice of length 0 with none of the pids matched so far, which
    [PidOf] passes on with a nil error.  It returns nil in no other case:
    a scan that is not cut short returns a non-nil slice, empty when
    nothing matched, so that the two are told apart by a test for nil,
    though not by their length. *)
Theorem scan_returns_nil_iff_aborted :
  forall (Regexp : Type) (MatchString : Regexp -> string -> bool)
         (re : Regexp) (w : World),
    (aborted_scan w ->
     fst (getPids MatchString re w) = None
     /\ len (fst (getPids MatchString re w)) = 0
     /\ forall (Compile : string -> result Regexp) (name : string),
         name <> "" ->
         Compile ("(^|/)" ++ name ++ "$") = Ok re ->
         fst (PidOf Compile MatchString name w) = (None, None))
    /\ (fst (getPids MatchString re w) = None -> aborted_scan w).
Proof.
  intros Regexp MatchString re w. split.
  - intros Ha.
    pose proof (AbortFacts.aborted_getPids_nil _ MatchString re w Ha) as Hnil.
    split; [exact Hnil|]. split; [now rewrite Hnil|].
    intros Compile name Hne Hc.
    rewrite (KillFacts.PidOf_compiled _ Compile MatchString name re w Hne Hc).
    cbn [fst]. now rewrite Hnil.
  - apply AbortFacts.getPids_nil_aborted.
Qed.

Lemma scan_returns_nil_iff_aborted_witness :
  fst (getPids regexp.MatchString (regexp.Literal 110) failing_read_world)
  = None
  /\ len (fst (getPids regexp.MatchString (regexp.Literal 110)
                       failing_read_world)) = 0.
Proof.
  destruct (proj1 (scan_returns_nil_iff_aborted
                     _ regexp.MatchString (regexp.Literal 110)
                     failing_read_world))
    as (Hnil & Hlen & _).
  - right. exists [[dir "1"; dir "3"]], [dir "2"], (Errno 5), [].
    split; [reflexivity | discriminate].
  - split; [exact Hnil | exact Hlen].
Defined.

(** C4, as stated, fails in its clause that the result of a scan cut
    short cannot be told from "no matches".  When /proc cannot be opened
    [getPids] returns nil; on a /proc that is read to its end and has no
    entry it returns a non-nil empty slice; [PidOf] passes each on, and
    its two results differ. *)
Lemma aborted_scan_differs_from_no_match :
  fst (getPids regexp.MatchString (anchored "nginx") unopenable_world) = None
  /\ fst (getPids regexp.MatchString (anchored "nginx") empty_proc_world)
     = Some []
  /\ fst (PidOf regexp.Compile regexp.MatchString "nginx" unopenable_world)
     = (None, None)
  /\ fst (PidOf regexp.Compile regexp.MatchString "nginx" empty_proc_world)
     = (Some [], None)
  /\ fst (PidOf regexp.Compile regexp.MatchString "nginx" unopenable_world)
     <> fst (PidOf regexp.Compile regexp.MatchString "nginx" empty_proc_world).
Proof.
  assert (A : fst (PidOf regexp.Compile regexp.MatchString "nginx"
                         unopenable_world) = (None, None))
    by (vm_compute; reflexivity).
  assert (B : fst (PidOf regexp.Compile regexp.MatchString "nginx"
                         empty_proc_world) = (Some [], None))
    by (vm_compute; reflexivity).
  split; [vm_compute; reflexivity|].
  split; [vm_compute; reflexivity|].
  split; [exact A|]. split; [exact B|].
  rewrite A, B. discriminate.
Qed.

(** C5.  In a scan whose directory reads all succeed, an entry whose
    command-line record cannot be read contributes nothing and stops
    nothing: the result is non-nil, it is what the scan of the same
    directory without that entry returns, and it contains the pid of
    every entry that is a directory with a numeric name and a readable
    command line whose first token the expression matches. *)
Theorem scan_skips_unreadable_entry :
  forall (Regexp : Type) (MatchString : Regexp -> string -> bool)
         (re : Regexp) (w : World)
         (before after : list (list FileInfo))
         (ls1 ls2 : list FileInfo) (bad : FileInfo) (err : error),
    dir_stream w "/proc"
    = Ok (map batch (before ++ (ls1 ++ bad :: ls2) :: after))%list ->
    file_content w (filepath.Join ["/proc"; Name bad; "cmdline"]) = Err err ->
    exists pids,
      fst (getPids MatchString re w) = Some pids
      /\ pids = matching_pids MatchString re (file_content w)
                  (concat (before ++ (ls1 ++ ls2) :: after))%list
      /\ (forall (Compile : string -> result Regexp) (name : string),
             name <> "" ->
             Compile ("(^|/)" ++ name ++ "$") = Ok re ->
             fst (PidOf Compile MatchString name w) = (Some pids, None))
      /\ forall entry pid cmdline tok,
          In entry (concat (before ++ (ls1 ++ bad :: ls2) :: after))%list ->
          IsDir entry = true ->
          strconv.Atoi (Name entry) = Some pid ->
          file_content w (filepath.Join ["/proc"; Name entry; "cmdline"])
          = Ok cmdline ->
          first_token cmdline = Some tok ->
          MatchString re tok = true ->
          In pid pids.
Proof.
  intros Regexp MatchString re w before after ls1 ls2 bad err Hd Hbad.
  assert (Hskip : matching_pid MatchString re (file_content w) bad = None).
  { unfold matching_pid. rewrite Hbad.
    destruct (IsDir bad); [|reflexivity].
    now destruct (strconv.Atoi (Name bad)). }
  assert (Hsame :
            matching_pids MatchString re (file_content w)
              (concat (before ++ (ls1 ++ bad :: ls2) :: after))%list
            = matching_pids MatchString re (file_content w)
                (concat (before ++ (ls1 ++ ls2) :: after))%list).
  { unfold matching_pids.
    rewrite !concat_app, !flat_map_app. cbn [concat].
    rewrite !flat_map_app. cbn [flat_map]. now rewrite Hskip. }
  exists (matching_pids MatchString re (file_content w)
            (concat (before ++ (ls1 ++ ls2) :: after))%list).
  assert (Hscan : fst (getPids MatchString re w)
                  = Some (matching_pids MatchString re (file_content w)
                            (concat (before ++ (ls1 ++ ls2) :: after))%list)).
  { rewrite <- Hsame.
    apply (ScanFacts.getPids_complete _ MatchString re _ [] w).
    - now rewrite app_nil_r.
    - now left. }
  split; [exact Hscan|]. split; [reflexivity|]. split.
  - intros Compile name Hne Hc.
    rewrite (KillFacts.PidOf_compiled _ Compile MatchString name re w Hne Hc).
    cbn [fst]. now rewrite Hscan.
  - intros entry pid cmdline tok Hin Hdir Hpid Hread Htok Hm.
    rewrite <- Hsame.
    unfold matching_pids. apply in_flat_map. exists entry. split; [exact Hin|].
    unfold matching_pid. rewrite Hdir, Hpid, Hread, Htok, Hm. now left.
Qed.

Lemma scan_skips_unreadable_entry_witness :
  exists pids,
    fst (getPids regexp.MatchString (regexp.Literal 110) nginx_world) = Some pids
    /\ pids = [1; 2; 3]%Z.
Proof.
  destruct (scan_skips_unreadable_entry
              _ regexp.MatchString (regexp.Literal 110) nginx_world
              [[dir "1"; file "uptime"; dir "self"; dir "2"]] []
              [] [dir "3"] (dir "4")
              (PathError "open" "/proc/4/cmdline" (Errno ENOENT))
              eq_refl eq_refl)
    as (pids & Hscan & Heq & _ & _).
  exists pids. split; [exact Hscan | exact Heq].
Defined.

(** C7.  With an empty name both operations return the error "name should
    not be empty" at once: the result is the same whatever [Compile] and
    the system are, and the system comes back as it was, no call
    recorded. *)
Theorem empty_name_rejected :
  forall (Regexp : Type) (Compile : string -> result Regexp)
         (MatchString : Regexp -> string -> bool) (errno_text : Z -> string)
         (sig : Z) (w : World),
    PidOf Compile MatchString "" w
    = ((Some [], Some (Errorf "name should not be empty" [])), w)
    /\ PKill Compile MatchString errno_text "" sig w
       = (Some (Errorf "name should not be empty" []), w).
Proof. intros. split; reflexivity. Qed.

(** C6.  For a non-empty name whose expression compiles, a scan that
    returns no pid makes [PKill] return the error "unable to fetch pids
    for process name", which is neither nil nor the error of an empty
    name, while [PidOf] returns a pid list of length 0 and a nil error. *)
Theorem no_match_asymmetry :
  forall (Regexp : Type) (Compile : string -> result Regexp)
         (MatchString : Regexp -> string -> bool) (errno_text : Z -> string)
         (name : string) (sig : Z) (w : World),
    name <> "" ->
    (forall re,
        Compile name = Ok re ->
        len (fst (getPids MatchString re w)) = 0 ->
        fst (PKill Compile MatchString errno_text name sig w)
        = Some (Errorf "unable to fetch pids for process name : %q" [name]))
    /\ (forall re,
           Compile ("(^|/)" ++ name ++ "$") = Ok re ->
           len (fst (getPids MatchString re w)) = 0 ->
           exists pids,
             fst (PidOf Compile MatchString name w) = (pids, None)
             /\ len pids = 0)
    /\ Errorf "unable to fetch pids for process name : %q" [name]
       <> Errorf "name should not be empty" [].
Proof.
  intros Regexp Compile MatchString errno_text name sig w Hne.
  split; [|split].
  - intros re Hc Hl. now apply KillFacts.PKill_no_pids with (re := re).
  - intros re Hc Hl. exists (fst (getPids MatchString re w)).
    now rewrite (KillFacts.PidOf_compiled _ Compile MatchString name re w Hne Hc).
  - discriminate.
Qed.

Lemma no_match_asymmetry_witness :
  fst (PKill regexp.Compile regexp.MatchString errno_text_kill "sshd" 15
         nginx_world)
  = Some (Errorf "unable to fetch pids for process name : %q" ["sshd"])
  /\ exists pids,
      fst (PidOf regexp.Compile regexp.MatchString "sshd" nginx_world)
      = (pids, None)
      /\ len pids = 0.
Proof.
  destruct (no_match_asymmetry _ regexp.Compile regexp.MatchString
              errno_text_kill "sshd" 15 nginx_world)
    as (HK & HP & _); [discriminate|].
  split.
  - eapply HK; reflexivity.
  - eapply HP; reflexivity.
Defined.

(** C10.  When the scan is cut short (/proc cannot be opened, or a read
    of the directory fails with an error other than end-of-stream)
    [getPids] returns nil and [PKill] returns the very error it returns
    when a complete scan matches no process. *)
Theorem scan_failure_reported_as_no_match :
  forall (Regexp : Type) (Compile : string -> result Regexp)
         (MatchString : Regexp -> string -> bool) (errno_text : Z -> string)
         (name : string) (sig : Z) (re : Regexp) (w : World),
    name <> "" ->
    Compile name = Ok re ->
    ((exists e, dir_stream w "/proc" = Err e)
     \/ (exists batches ls e rest,
            dir_stream w "/proc"
            = Ok (map batch batches ++ (ls, Some e) :: rest)%list
            /\ e <> EOF)) ->
    fst (getPids MatchString re w) = None
    /\ fst (PKill Compile MatchString errno_text name sig w)
       = Some (Errorf "unable to fetch pids for process name : %q" [name])
    /\ forall w',
        fst (getPids MatchString re w') = Some [] ->
        fst (PKill Compile MatchString errno_text name sig w')
        = fst (PKill Compile MatchString errno_text name sig w).
Proof.
  intros Regexp Compile MatchString errno_text name sig re w Hne Hc Habort.
  assert (Hnil : fst (getPids MatchString re w) = None).
  { destruct Habort as [[e He] | (batches & ls & e & rest & Hd & He)].
    - now rewrite ScanFacts.getPids_unfold, He.
    - eapply ScanFacts.getPids_abort; eauto. }
  assert (HK : fst (PKill Compile MatchString errno_text name sig w)
               = Some (Errorf "unable to fetch pids for process name : %q"
                              [name])).
  { apply KillFacts.PKill_no_pids with (re := re); auto. now rewrite Hnil. }
  repeat split; auto.
  intros w' Hw'. rewrite HK.
  apply KillFacts.PKill_no_pids with (re := re); auto. now rewrite Hw'.
Qed.

Lemma scan_failure_reported_as_no_match_witness :
  fst (PKill regexp.Compile regexp.MatchString errno_text_kill "nginx" 15
         (example_world (Err (PathError "open" "/proc" (Errno 13))) []
                        (fun _ => None)))
  = Some (Errorf "unable to fetch pids for process name : %q" ["nginx"]).
Proof.
  refine (proj1 (proj2 (scan_failure_reported_as_no_match
                          _ regexp.Compile regexp.MatchString errno_text_kill
                          "nginx" 15 _ _ _ eq_refl _))).
  - discriminate.
  - left. eexists. reflexivity.
Defined.

(* ================================================================== *)
(** * Error texts *)

Module TextFacts.

Lemma failures_texts (errno_text : Z -> string) (pids : list Z) (sig : Z)
      (w : World) (msg : string) :
  In msg (fst (failures errno_text pids sig w)) ->
  exists e, msg = errno_text e.
Proof.
  revert w. induction pids as [|pid rest IH]; intros w; [intros []|].
  cbn [failures]. unfold Kill.
  specialize (IH (record (EvKill pid sig) w)).
  destruct (failures errno_text rest sig (record (EvKill pid sig) w))
    as [msgs w1].
  destruct (kill_outcome w (trace w) pid sig) as [e|]; cbn [fst] in *.
  - intros [<- | H]; [now exists e | auto].
  - exact IH.
Qed.

Lemma Sprintf_s_plain (s : string) :
  mem "%" s = false -> Sprintf_s s [] = Some s.
Proof.
  induction s as [|c s IH]; [reflexivity|].
  intros H. cbn [mem] in H. apply orb_false_iff in H as [Hc Hs].
  specialize (IH Hs).
  destruct c as [[|] [|] [|] [|] [|] [|] [|] [|]];
    try discriminate Hc; cbn [Sprintf_s]; rewrite IH; reflexivity.
Qed.

Lemma Sprintf_example_plain (s : string) :
  mem "%" s = false -> Sprintf_example s [] = s.
Proof. intros H. unfold Sprintf_example. now rewrite Sprintf_s_plain. Qed.

Lemma Sprintf_example_brackets (s : string) :
  Sprintf_example "[ %s ]" [s] = "[ " ++ s ++ " ]".
Proof. reflexivity. Qed.

Lemma uint_text_plain (d : Decimal.uint) :
  mem "%" (NilEmpty.string_of_uint d) = false.
Proof. induction d; simpl; auto. Qed.

Lemma Itoa_plain (i : Z) : mem "%" (strconv.Itoa i) = false.
Proof.
  unfold strconv.Itoa, NilZero.string_of_int, NilZero.string_of_uint.
  destruct (Z.to_int i) as [d|d]; cbn [mem Ascii.eqb Bool.eqb orb];
    (destruct d; [reflexivity | apply uint_text_plain ..]).
Qed.

Lemma errno_text_kill_plain (e : Z) : mem "%" (errno_text_kill e) = false.
Proof.
  unfold errno_text_kill.
  destruct (e =? EPERM)%Z; [reflexivity|].
  destruct (e =? ESRCH)%Z; [reflexivity|].
  destruct (e =? EINVAL)%Z; [reflexivity|].
  rewrite mem_append. now rewrite Itoa_plain.
Qed.

(** [contains] finds every occurrence. *)
Lemma prefix_append (a b : string) : String.prefix a (a ++ b) = true.
Proof.
  induction a as [|c a IH]; simpl; [now destruct b|].
  now rewrite Ascii.eqb_refl || (destruct (ascii_dec c c); [exact IH | contradiction]).
Qed.

Lemma contains_prefix (sub s : string) :
  String.prefix sub s = true -> contains sub s = true.
Proof. intros H. destruct s; cbn [contains]; now rewrite H. Qed.

Lemma contains_occurrence (sub pre post : string) :
  contains sub (pre ++ sub ++ post) = true.
Proof.
  induction pre as [|c pre IH].
  - change ("" ++ sub ++ post) with (sub ++ post).
    apply contains_prefix, prefix_append.
  - change (String c pre ++ sub ++ post) with (String c (pre ++ sub ++ post)).
    cbn [contains]. rewrite IH. apply orb_true_r.
Qed.

End TextFacts.

(** C2 (amended).  Once the scan has found pids, [PKill] signals each of
    them and keeps the distinct messages of the failed deliveries in the
    order of their first occurrence.  With none it returns nil; with one,
    an error whose text is that message; with more, one error whose text
    is the messages joined with a comma (no space) between "[ " and " ]".
    The texts are those of fmt for a format without verbs and for the
    format "[ %s ]"; errno messages contain no percent sign. *)
Theorem kill_error_aggregation :
  forall (Regexp : Type) (Compile : string -> result Regexp)
         (MatchString : Regexp -> string -> bool) (errno_text : Z -> string)
         (Sprintf : string -> list string -> string),
    (forall s, mem "%" s = false -> Sprintf s [] = s) ->
    (forall s, Sprintf "[ %s ]" [s] = "[ " ++ s ++ " ]") ->
    (forall e, mem "%" (errno_text e) = false) ->
    forall (name : string) (sig : Z) (re : Regexp) (w : World),
      name <> "" ->
      Compile name = Ok re ->
      len (fst (getPids MatchString re w)) <> 0 ->
      let failed :=
          fst (failures errno_text (elements (fst (getPids MatchString re w)))
                        sig (snd (getPids MatchString re w))) in
      let result := fst (PKill Compile MatchString errno_text name sig w) in
      NoDup (distinct failed)
      /\ (forall msg, In msg (distinct failed) <-> In msg failed)
      /\ match distinct failed with
         | [] => result = None
         | [msg] =>
           exists err, result = Some err
                       /\ Error Sprintf errno_text err = msg
         | msgs =>
           exists err, result = Some err
                       /\ Error Sprintf errno_text err
                          = "[ " ++ strings.Join msgs "," ++ " ]"
         end.
Proof.
  intros Regexp Compile MatchString errno_text Sprintf Hplain Hbr Herrno
         name sig re w Hne Hc Hl failed result.
  split; [apply KillFacts.distinct_NoDup|].
  split; [intros msg; apply KillFacts.distinct_In|].
  subst result.
  rewrite (KillFacts.PKill_result _ Compile MatchString errno_text
                                  name sig re w Hne Hc Hl).
  fold failed.
  destruct (distinct failed) as [|m1 [|m2 ms]] eqn:E.
  - reflexivity.
  - eexists. split; [reflexivity|]. cbn [Error].
    apply Hplain.
    assert (Hin : In m1 failed)
      by (apply KillFacts.distinct_In; rewrite E; now left).
    apply TextFacts.failures_texts in Hin as [e ->]. apply Herrno.
  - eexists. split; [reflexivity|]. cbn [Error]. apply Hbr.
Qed.

Lemma kill_error_aggregation_witness :
  exists err,
    fst (PKill regexp.Compile regexp.MatchString errno_text_kill "ngin" 15
           nginx_world) = Some err
    /\ Error Sprintf_example errno_text_kill err
       = "[ operation not permitted,no such process ]".
Proof.
  refine (proj2 (proj2 (kill_error_aggregation
                          _ regexp.Compile regexp.MatchString errno_text_kill
                          Sprintf_example
                          TextFacts.Sprintf_example_plain
                          TextFacts.Sprintf_example_brackets
                          TextFacts.errno_text_kill_plain
                          "ngin" 15 _ nginx_world _ eq_refl _))).
  - discriminate.
  - vm_compute. discriminate.
Defined.

(** C2, as stated, fails: with the failures "operation not permitted" (pids
    1 and 3) and "no such process" (pid 2) the text of the error is
    "[ operation not permitted,no such process ]", in which the two
    messages joined with ", " do not occur. *)
Lemma kill_error_aggregation_separator :
  exists err,
    fst (PKill regexp.Compile regexp.MatchString errno_text_kill "ngin" 15
           nginx_world) = Some err
    /\ distinct (fst (failures errno_text_kill [1; 2; 3]%Z 15 nginx_world))
       = ["operation not permitted"; "no such process"]
    /\ Error Sprintf_example errno_text_kill err
       = "[ operation not permitted,no such process ]"
    /\ ~ exists pre post,
          Error Sprintf_example errno_text_kill err
          = pre ++ strings.Join ["operation not permitted"; "no such process"]
                                ", "
                ++ post.
Proof.
  eexists. split; [vm_compute; reflexivity|].
  split; [vm_compute; reflexivity|].
  split; [vm_compute; reflexivity|].
  intros (pre & post & H).
  pose proof (TextFacts.contains_occurrence
                (strings.Join ["operation not permitted"; "no such process"] ", ")
                pre post) as C.
  rewrite <- H in C. vm_compute in C. discriminate.
Qed.

(* ================================================================== *)
(** * Decoding *)

Module Utf8Facts.
Import utf8.

Lemma decode_ascii (c : ascii) (t : string) :
  (byte c < 128)%N -> DecodeRuneInString (String c t) = (byte c, 1).
Proof.
  intros H. unfold DecodeRuneInString, RuneSelf.
  apply N.ltb_lt in H. now rewrite H.
Qed.




Lemma runes_fuel_ascii (s : string) (fuel : nat) :
  all_bytes is_ascii s = true ->
  String.length s <= fuel ->
  runes_fuel fuel s
  = map (fun c => (byte c, String c "")) (list_ascii_of_string s).
Proof.
  revert fuel. induction s as [|c s IH]; intros fuel Ha Hf.
  - now destruct fuel.
  - destruct fuel as [|fuel]; [simpl in Hf; lia|].
    cbn [all_bytes] in Ha. apply andb_true_iff in Ha as [Hc Hs].
    cbn [runes_fuel]. rewrite decode_ascii by now apply N.ltb_lt.
    cbn [take drop list_ascii_of_string map]. f_equal.
    apply IH; [exact Hs | simpl in Hf; lia].
Qed.

Lemma runes_ascii (s : string) :
  all_bytes is_ascii s = true ->
  runes s = map (fun c => (byte c, String c "")) (list_ascii_of_string s).
Proof. intros H. apply runes_fuel_ascii; auto. Qed.

End Utf8Facts.

(* ================================================================== *)
(** * The anchored expression of PidOf *)

Module RegexpFacts.
Import regexp.
Local Open Scope list_scope.

Lemma plain_byte_ascii (c : ascii) :
  plain_byte c = true -> is_ascii c = true.
Proof. unfold plain_byte. intros H. now apply andb_true_iff in H as [H _]. Qed.

Lemma plain_name_ascii (name : string) :
  plain_name name = true -> all_bytes is_ascii name = true.
Proof.
  induction name as [|c name IH]; [reflexivity|]. cbn [plain_name all_bytes].
  intros H. apply andb_true_iff in H as [Hc Hn].
  now rewrite (plain_byte_ascii _ Hc), IH.
Qed.

(** A plain byte is read as a literal, in whatever mode but an escape. *)
Lemma parse_loop_plain_byte (c : ascii) (t : list (N * string)) (md : mode)
      (stack : list frame) (cur : frame) :
  plain_byte c = true ->
  md <> AfterBackslash ->
  parse_loop ((utf8.byte c, String c "") :: t) md stack cur
  = parse_loop t Normal stack (push (Literal (utf8.byte c)) cur).
Proof.
  intros Hc Hmd.
  destruct c as [[|] [|] [|] [|] [|] [|] [|] [|]];
    try discriminate Hc;
    destruct md as [| | |[|]]; try congruence; reflexivity.
Qed.

Lemma parse_loop_plain (name : string) (t : list (N * string))
      (stack : list frame) (cur : frame) :
  plain_name name = true ->
  parse_loop (map (fun c => (utf8.byte c, String c ""))
                  (list_ascii_of_string name) ++ t) Normal stack cur
  = parse_loop t Normal stack
               (mkFrame (alts cur) (rev (literals name) ++ items cur)).
Proof.
  revert cur. induction name as [|c name IH]; intros cur Hn.
  - now destruct cur.
  - cbn [plain_name all_bytes] in Hn. apply andb_true_iff in Hn as [Hc Hn].
    cbn [list_ascii_of_string map app].
    rewrite parse_loop_plain_byte by (auto; discriminate).
    rewrite IH by exact Hn. unfold literals.
    cbn [push alts items list_ascii_of_string map rev].
    now rewrite <- app_assoc.
Qed.

Lemma list_ascii_append (a b : string) :
  list_ascii_of_string (a ++ b)%string
  = list_ascii_of_string a ++ list_ascii_of_string b.
Proof. induction a as [|c a IH]; simpl; [reflexivity | now rewrite IH]. Qed.

Lemma all_bytes_append (p : ascii -> bool) (a b : string) :
  all_bytes p (a ++ b)%string = all_bytes p a && all_bytes p b.
Proof.
  induction a as [|c a IH]; simpl; [reflexivity|].
  now rewrite IH, andb_assoc.
Qed.



















End RegexpFacts.

(* ================================================================== *)
(** * Anchoring *)





(* ================================================================== *)
(** * Further properties: the calls of the package *)

Module TraceFacts.
Local Open Scope list_scope.

Section WithRegexp.
Variable Regexp : Type.
Variable MatchString : Regexp -> string -> bool.
Variable re : Regexp.

Lemma scan_entry_trace (entry : FileInfo) (pids : list Z) (w : World) :
  trace (snd (scan_entry MatchString re entry pids w))
  = trace w ++ entry_events entry.
Proof.
  unfold scan_entry, entry_events.
  destruct (IsDir entry); cbn [negb]; [|cbn; now rewrite app_nil_r].
  destruct (strconv.Atoi (Name entry)) as [pid|];
    [|cbn; now rewrite app_nil_r].
  unfold ReadFile.
  destruct (file_content w _) as [cmdline|err]; [|reflexivity].
  destruct (bytes.SplitN cmdline "000" 2) as [|part0 parts]; [reflexivity|].
  destruct (strings.FieldsFunc part0 is_separator) as [|exe0 exe];
    [reflexivity|].
  now destruct (MatchString re exe0).
Qed.

Lemma scan_batch_trace (ls : list FileInfo) (pids : list Z) (w : World) :
  trace (snd (scan_batch MatchString re ls pids w))
  = trace w ++ flat_map entry_events ls.
Proof.
  revert pids w. induction ls as [|entry rest IH]; intros pids w.
  - cbn. now rewrite app_nil_r.
  - cbn [scan_batch flat_map].
    pose proof (scan_entry_trace entry pids w) as E.
    destruct (scan_entry MatchString re entry pids w) as [pids1 w1].
    cbn [snd] in E. now rewrite IH, E, app_assoc.
Qed.

Lemma readdir_loop_trace (dirFD : list ReaddirResult) (pids : list Z)
      (w : World) :
  trace (snd (readdir_loop MatchString re dirFD pids w))
  = trace w ++ handle_events dirFD.
Proof.
  revert pids w. induction dirFD as [|[ls [err|]] rest IH]; intros pids w.
  - reflexivity.
  - cbn [readdir_loop Readdir handle_events]. now destruct err.
  - rewrite ScanFacts.readdir_loop_ok, IH, scan_batch_trace.
    cbn [record trace handle_events].
    now rewrite <- !app_assoc.
Qed.

Lemma getPids_trace (w : World) :
  trace (snd (getPids MatchString re w)) = trace w ++ scan_events w.
Proof.
  unfold getPids, scan_events, Open.
  destruct (dir_stream w "/proc") as [dirFD|e]; [|reflexivity].
  pose proof (readdir_loop_trace dirFD [] (record (EvOpen "/proc") w)) as E.
  destruct (readdir_loop MatchString re dirFD [] _) as [pids w1].
  cbn [snd Close record trace] in *. rewrite E.
  now rewrite <- !app_assoc.
Qed.

(** The result of the loop depends on the files only. *)
Lemma readdir_loop_files (dirFD : list ReaddirResult) (pids : list Z)
      (w w' : World) :
  file_content w' = file_content w ->
  fst (readdir_loop MatchString re dirFD pids w')
  = fst (readdir_loop MatchString re dirFD pids w).
Proof.
  revert pids w w'. induction dirFD as [|[ls [err|]] rest IH];
    intros pids w w' Hf.
  - reflexivity.
  - cbn [readdir_loop Readdir]. now destruct err.
  - rewrite !ScanFacts.readdir_loop_ok.
    destruct (ScanFacts.scan_batch_spec _ MatchString re ls pids
                (record (EvReaddir 10) w)) as [E (_ & S & _)].
    destruct (ScanFacts.scan_batch_spec _ MatchString re ls pids
                (record (EvReaddir 10) w')) as [E' (_ & S' & _)].
    rewrite E, E'. cbn [record file_content] in *. rewrite Hf.
    apply IH. congruence.
Qed.

Lemma getPids_files (w w' : World) :
  dir_stream w' "/proc" = dir_stream w "/proc" ->
  file_content w' = file_content w ->
  fst (getPids MatchString re w') = fst (getPids MatchString re w).
Proof.
  intros Hd Hf. rewrite !ScanFacts.getPids_unfold, Hd.
  destruct (dir_stream w "/proc") as [dirFD|e]; [|reflexivity].
  now apply readdir_loop_files.
Qed.

End WithRegexp.

Lemma handle_events_no_kill (dirFD : list ReaddirResult) :
  forallb (fun ev => negb (is_kill ev || is_open_or_close ev))
          (handle_events dirFD) = true.
Proof.
  induction dirFD as [|[ls [err|]] rest IH]; cbn; [reflexivity..|].
  rewrite forallb_app, IH, andb_true_r.
  induction ls as [|entry ls IHls]; [reflexivity|].
  cbn [flat_map]. rewrite forallb_app, IHls, andb_true_r.
  unfold entry_events. destruct (IsDir entry); [|reflexivity].
  now destruct (strconv.Atoi (Name entry)).
Qed.

Lemma kill_loop_trace (errno_text : Z -> string) (pids : list Z) (sig : Z)
      (errmsgs : list string) (w : World) :
  trace (snd (kill_loop errno_text pids sig errmsgs w))
  = trace w ++ map (fun pid => EvKill pid sig) pids.
Proof.
  revert errmsgs w. induction pids as [|pid rest IH]; intros errmsgs w.
  - cbn. now rewrite app_nil_r.
  - cbn [kill_loop map]. unfold Kill.
    destruct (kill_outcome w (trace w) pid sig) as [e|];
      [destruct (seen (errno_text e) errmsgs)|];
      rewrite IH; cbn [record trace]; now rewrite <- app_assoc.
Qed.

Lemma files_read_app (a b : list Event) :
  files_read (a ++ b) = files_read a ++ files_read b.
Proof. apply flat_map_app. Qed.

Lemma files_read_entries (ls : list FileInfo) :
  files_read (flat_map entry_events ls)
  = map (fun entry => "/proc/" ++ Name entry ++ "/cmdline")%string
        (filter numeric_dir ls).
Proof.
  induction ls as [|entry ls IH]; [reflexivity|].
  cbn [flat_map filter]. rewrite files_read_app, IH.
  unfold entry_events, numeric_dir.
  destruct (IsDir entry); [|reflexivity].
  destruct (strconv.Atoi (Name entry)) as [pid|] eqn:Hp; [|reflexivity].
  cbn [andb map files_read flat_map app]. f_equal.
  apply PathFacts.Join3; [discriminate | | discriminate].
  intros Hn. rewrite Hn in Hp. discriminate.
Qed.

Lemma files_read_batches (batches : list (list FileInfo)) :
  files_read (handle_events (map batch batches))
  = map (fun entry => "/proc/" ++ Name entry ++ "/cmdline")%string
        (filter numeric_dir (concat batches)).
Proof.
  induction batches as [|ls batches IH]; [reflexivity|].
  cbn [map batch handle_events concat].
  change (files_read (EvReaddir 10
                      :: flat_map entry_events ls
                      ++ handle_events (map batch batches)))
    with (files_read (flat_map entry_events ls
                      ++ handle_events (map batch batches))).
  now rewrite files_read_app, IH, filter_app, map_app, files_read_entries.
Qed.

Lemma PidOf_same_system (Regexp : Type) (Compile : string -> result Regexp)
      (MatchString : Regexp -> string -> bool) (name : string) (w : World) :
  same_system w (snd (PidOf Compile MatchString name w)).
Proof.
  unfold PidOf.
  destruct (Nat.eqb (String.length name) 0);
    [apply ScanFacts.same_system_refl|].
  destruct (Compile ("(^|/)" ++ name ++ "$")%string) as [re|err];
    [|apply ScanFacts.same_system_refl].
  pose proof (ScanFacts.getPids_same_system _ MatchString re w) as HS.
  now destruct (getPids MatchString re w).
Qed.

End TraceFacts.

(** X1.  A scan opens /proc once.  When that fails nothing else is done;
    otherwise the handle is closed by the last call of the scan, also
    when a read of the directory fails, and between the two the scan
    neither opens, closes nor signals anything. *)
Theorem scan_opens_once_and_closes :
  forall (Regexp : Type) (MatchString : Regexp -> string -> bool)
         (re : Regexp) (w : World),
    match dir_stream w "/proc" with
    | Err _ =>
      trace (snd (getPids MatchString re w))
      = (trace w ++ [EvOpen "/proc"])%list
    | Ok _ =>
      exists evs,
        trace (snd (getPids MatchString re w))
        = (trace w ++ EvOpen "/proc" :: evs ++ [EvClose])%list
        /\ forallb (fun ev => negb (is_kill ev || is_open_or_close ev)) evs
           = true
    end.
Proof.
  intros Regexp MatchString re w.
  rewrite TraceFacts.getPids_trace. unfold scan_events.
  destruct (dir_stream w "/proc") as [dirFD|e]; [|reflexivity].
  exists (handle_events dirFD). split; [reflexivity|].
  apply TraceFacts.handle_events_no_kill.
Qed.

(** X2.  In a scan whose directory reads all succeed, the files read are
    the command lines of the directories with a numeric name, each once,
    in the order of enumeration, whatever the expression is and whether
    or not the reads succeed. *)
Theorem scan_reads_numeric_directories :
  forall (Regexp : Type) (MatchString : Regexp -> string -> bool)
         (re : Regexp) (w : World) (batches : list (list FileInfo)),
    dir_stream w "/proc" = Ok (map batch batches) ->
    exists evs,
      trace (snd (getPids MatchString re w)) = (trace w ++ evs)%list
      /\ files_read evs
         = map (fun entry => "/proc/" ++ Name entry ++ "/cmdline")
               (filter numeric_dir (concat batches)).
Proof.
  intros Regexp MatchString re w batches Hd.
  exists (scan_events w). split; [apply TraceFacts.getPids_trace|].
  unfold scan_events. rewrite Hd.
  change (files_read (EvOpen "/proc"
                      :: handle_events (map batch batches) ++ [EvClose])%list)
    with (files_read (handle_events (map batch batches) ++ [EvClose])%list).
  rewrite TraceFacts.files_read_app, TraceFacts.files_read_batches.
  apply app_nil_r.
Qed.

Lemma scan_reads_numeric_directories_witness :
  exists evs,
    trace (snd (getPids regexp.MatchString (regexp.Literal 110) nginx_world))
    = evs
    /\ files_read evs
       = ["/proc/1/cmdline"; "/proc/2/cmdline"; "/proc/4/cmdline";
          "/proc/3/cmdline"].
Proof.
  destruct (scan_reads_numeric_directories
              _ regexp.MatchString (regexp.Literal 110) nginx_world
              [[dir "1"; file "uptime"; dir "self"; dir "2"];
               [dir "4"; dir "3"]] eq_refl)
    as (evs & Ht & Hr).
  exists evs. split; [exact Ht | exact Hr].
Defined.


(** X4.  The pids [PidOf] returns depend on the directory and the files
    only, not on the calls made before: two systems with the same
    directories and files give the same answer, so that a second call
    right after the first returns what the first returned. *)
Theorem PidOf_repeatable :
  forall (Regexp : Type) (Compile : string -> result Regexp)
         (MatchString : Regexp -> string -> bool) (name : string),
    (forall w w',
        same_system w w' ->
        fst (PidOf Compile MatchString name w')
        = fst (PidOf Compile MatchString name w))
    /\ forall w,
        fst (PidOf Compile MatchString name
                   (snd (PidOf Compile MatchString name w)))
        = fst (PidOf Compile MatchString name w).
Proof.
  intros Regexp Compile MatchString name.
  assert (H : forall w w',
             same_system w w' ->
             fst (PidOf Compile MatchString name w')
             = fst (PidOf Compile MatchString name w)).
  { intros w w' (Hd & Hf & _). unfold PidOf.
    destruct (Nat.eqb (String.length name) 0); [reflexivity|].
    destruct (Compile ("(^|/)" ++ name ++ "$")) as [re|err]; [|reflexivity].
    pose proof (TraceFacts.getPids_files _ MatchString re w w'
                  ltac:(now rewrite Hd) Hf) as E.
    destruct (getPids MatchString re w) as [pids w1].
    destruct (getPids MatchString re w') as [pids' w1'].
    cbn [fst] in *. now rewrite E. }
  split; [exact H|].
  intros w. apply H. apply TraceFacts.PidOf_same_system.
Qed.

Lemma PidOf_repeatable_witness :
  fst (PidOf regexp.Compile regexp.MatchString "nginx"
             (record (EvKill 1 15) nginx_world))
  = fst (PidOf regexp.Compile regexp.MatchString "nginx" nginx_world).
Proof.
  apply (proj1 (PidOf_repeatable _ regexp.Compile regexp.MatchString "nginx")).
  repeat split.
Defined.

(** X5.  How the entries of /proc are cut into batches does not matter:
    two complete scans over the same files whose batches list the same
    entries in the same order return the same pids. *)
Theorem scan_independent_of_batching :
  forall (Regexp : Type) (MatchString : Regexp -> string -> bool)
         (re : Regexp) (w w' : World) (batches batches' : list (list FileInfo)),
    dir_stream w "/proc" = Ok (map batch batches) ->
    dir_stream w' "/proc" = Ok (map batch batches') ->
    file_content w' = file_content w ->
    concat batches' = concat batches ->
    fst (getPids MatchString re w') = fst (getPids MatchString re w).
Proof.
  intros Regexp MatchString re w w' batches batches' Hd Hd' Hf Hc.
  rewrite (ScanFacts.getPids_complete _ MatchString re batches [] w);
    [|now rewrite app_nil_r | now left].
  rewrite (ScanFacts.getPids_complete _ MatchString re batches' [] w');
    [|now rewrite app_nil_r | now left].
  now rewrite Hf, Hc.
Qed.

Lemma scan_independent_of_batching_witness :
  fst (getPids regexp.MatchString (regexp.Literal 110)
         (example_world
            (Ok [batch [dir "1"]; batch [file "uptime"; dir "self"];
                 batch []; batch [dir "2"; dir "4"; dir "3"]])
            [("/proc/1/cmdline", "/usr/sbin/nginx" ++ NUL ++ "-g" ++ NUL
                                  ++ "daemon off;" ++ NUL);
             ("/proc/2/cmdline", "nginx-helper" ++ NUL);
             ("/proc/3/cmdline", "nginx: worker process" ++ NUL)]
            (fun _ => None)))
  = fst (getPids regexp.MatchString (regexp.Literal 110) nginx_world).
Proof.
  apply (scan_independent_of_batching
           _ regexp.MatchString (regexp.Literal 110) nginx_world _
           [[dir "1"; file "uptime"; dir "self"; dir "2"]; [dir "4"; dir "3"]]
           [[dir "1"]; [file "uptime"; dir "self"]; []; [dir "2"; dir "4"; dir "3"]]);
    reflexivity.
Defined.

(** X6.  After the scan [PKill] signals the pids the scan returned, each
    once and in that order, and does nothing else; a delivery that fails
    does not keep the later ones from being attempted. *)
Theorem PKill_signals_every_pid :
  forall (Regexp : Type) (Compile : string -> result Regexp)
         (MatchString : Regexp -> string -> bool) (errno_text : Z -> string)
         (name : string) (sig : Z) (re : Regexp) (w : World),
    name <> "" ->
    Compile name = Ok re ->
    trace (snd (PKill Compile MatchString errno_text name sig w))
    = (trace (snd (getPids MatchString re w))
       ++ map (fun pid => EvKill pid sig)
              (elements (fst (getPids MatchString re w))))%list.
Proof.
  intros Regexp Compile MatchString errno_text name sig re w Hne Hc.
  unfold PKill. rewrite (KillFacts.nonempty_length name Hne), Hc.
  destruct (getPids MatchString re w) as [pids w1]. cbn [fst snd].
  destruct pids as [[|pid pids]|]; cbn [len List.length Nat.eqb elements map];
    try now rewrite app_nil_r.
  pose proof (TraceFacts.kill_loop_trace errno_text (pid :: pids) sig [] w1)
    as E.
  destruct (kill_loop errno_text (pid :: pids) sig [] w1) as [errmsgs w2].
  cbn [snd] in E.
  destruct (Nat.ltb 0 (List.length errmsgs)); [|exact E].
  destruct (Nat.eqb (List.length errmsgs) 1); exact E.
Qed.

Lemma PKill_signals_every_pid_witness :
  trace (snd (PKill regexp.Compile regexp.MatchString errno_text_kill
                    "ngin" 15 nginx_world))
  = (trace (snd (getPids regexp.MatchString
                         (regexp.seq (literals "ngin")) nginx_world))
     ++ [EvKill 1 15; EvKill 2 15; EvKill 3 15])%list.
Proof.
  apply (PKill_signals_every_pid
           _ regexp.Compile regexp.MatchString errno_text_kill
           "ngin" 15 (regexp.seq (literals "ngin")) nginx_world).
  - discriminate.
  - reflexivity.
Defined.

(** X7.  For a non-empty name that compiles, [PKill] returns nil exactly
    when the scan found at least one pid and every delivery succeeded. *)
Theorem PKill_succeeds_iff :
  forall (Regexp : Type) (Compile : string -> result Regexp)
         (MatchString : Regexp -> string -> bool) (errno_text : Z -> string)
         (name : string) (sig : Z) (re : Regexp) (w : World),
    name <> "" ->
    Compile name = Ok re ->
    (fst (PKill Compile MatchString errno_text name sig w) = None
     <-> len (fst (getPids MatchString re w)) <> 0
         /\ fst (failures errno_text
                          (elements (fst (getPids MatchString re w))) sig
                          (snd (getPids MatchString re w))) = []).
Proof.
  intros Regexp Compile MatchString errno_text name sig re w Hne Hc.
  destruct (Nat.eq_dec (len (fst (getPids MatchString re w))) 0) as [Hz|Hnz].
  - rewrite (KillFacts.PKill_no_pids _ Compile MatchString errno_text
               name sig re w Hne Hc Hz).
    split; [discriminate | intros [H _]; contradiction].
  - rewrite (KillFacts.PKill_result _ Compile MatchString errno_text
               name sig re w Hne Hc Hnz).
    destruct (fst (failures errno_text _ sig _)) as [|m ms] eqn:E.
    + cbn [distinct]. split; auto.
    + cbn [distinct].
      destruct (filter _ (distinct ms)); split;
        try discriminate; intros [_ H]; discriminate.
Qed.

Lemma PKill_succeeds_iff_witness :
  fst (PKill regexp.Compile regexp.MatchString errno_text_kill "c" 15
             cplus_world) = None.
Proof.
  apply (PKill_succeeds_iff _ regexp.Compile regexp.MatchString
           errno_text_kill "c" 15 (regexp.seq (literals "c")) cplus_world).
  - discriminate.
  - reflexivity.
  - split; [vm_compute; discriminate | vm_compute; reflexivity].
Defined.

(* ================================================================== *)
(** * Further properties: the container name *)

Module TrimFacts.
Import strings.

Lemma take_length (s : string) : take (String.length s) s = s.
Proof. induction s as [|c s IH]; simpl; [reflexivity | now rewrite IH]. Qed.

Lemma clean_end_split (s : string) :
  clean_end s = true ->
  exists pre d, s = pre ++ String d "" /\ clean_byte d = true.
Proof.
  induction s as [|c s IH]; [discriminate|].
  destruct s as [|c' s'].
  - intros H. now exists "", c.
  - intros H. destruct (IH H) as (pre & d & E & Hd).
    exists (String c pre), d. split; [|exact Hd]. simpl. now rewrite <- E.
Qed.

Lemma rev_list_ascii_snoc (pre : string) (d : ascii) :
  rev (list_ascii_of_string (pre ++ String d ""))
  = d :: rev (list_ascii_of_string pre).
Proof.
  induction pre as [|c pre IH]; [reflexivity|].
  simpl. now rewrite IH.
Qed.

Lemma get_snoc (pre : string) (d : ascii) :
  String.get (String.length pre) (pre ++ String d "") = Some d.
Proof. induction pre as [|c pre IH]; [reflexivity | exact IH]. Qed.

Lemma clean_byte_spec (c : ascii) :
  clean_byte c = true ->
  (utf8.byte c < 128)%N /\ unicode.IsSpace (utf8.byte c) = false.
Proof.
  unfold clean_byte. intros H. apply andb_true_iff in H as [A B].
  split; [now apply N.ltb_lt | now apply negb_true_iff].
Qed.

Lemma TrimLeftFunc_clean (s : string) :
  clean_start s = true -> TrimLeftFunc s unicode.IsSpace = s.
Proof.
  destruct s as [|c t]; [discriminate|]. intros H.
  apply clean_byte_spec in H as [Hc Hs].
  unfold TrimLeftFunc. cbn [String.length trim_left_fuel].
  rewrite Utf8Facts.decode_ascii by exact Hc. now rewrite Hs.
Qed.

Lemma TrimRightFunc_clean (s : string) :
  clean_end s = true -> TrimRightFunc s unicode.IsSpace = s.
Proof.
  intros H. apply clean_end_split in H as (pre & d & -> & Hd).
  apply clean_byte_spec in Hd as [Hc Hs].
  assert (HL : utf8.DecodeLastRuneInString (pre ++ String d "")
               = (utf8.byte d, 1)).
  { unfold utf8.DecodeLastRuneInString. rewrite rev_list_ascii_snoc.
    apply N.ltb_lt in Hc. unfold utf8.RuneSelf. now rewrite Hc. }
  unfold TrimRightFunc.
  assert (Hlen : String.length (pre ++ String d "")
                 = S (String.length pre))
    by (rewrite length_append; simpl; lia).
  rewrite Hlen. cbn [last_index_fuel]. rewrite HL, Hs, Hlen.
  replace (S (String.length pre) - 1) with (String.length pre) by lia.
  rewrite get_snoc.
  destruct (utf8.RuneSelf <=? utf8.byte d)%N eqn:E.
  - apply N.leb_le in E. unfold utf8.RuneSelf in E. lia.
  - rewrite <- Hlen. apply take_length.
Qed.

Lemma TrimSpace_clean (s : string) :
  clean_start s = true -> clean_end s = true -> TrimSpace s = s.
Proof.
  intros Hs He. unfold TrimSpace, TrimFunc.
  rewrite TrimLeftFunc_clean by exact Hs. now apply TrimRightFunc_clean.
Qed.

End TrimFacts.

Module CgroupMore.
Import strings SplitFacts CgroupFacts.

Lemma devices_line_succeeds_iff (lines : list string) :
  snd (devices_line lines) = None
  <-> exists line, In line lines /\ is_devices_line line.
Proof.
  induction lines as [|line rest IH].
  - split; [discriminate | intros (l & [] & _)].
  - cbn [devices_line].
    destruct (Nat.eqb (List.length (SplitN line ":" 3)) 3
              && String.eqb (nth 1 (SplitN line ":" 3) "") "devices") eqn:T.
    + split; [|reflexivity]. intros _. exists line.
      split; [now left | now apply devices_test].
    + rewrite IH. split.
      * intros (l & Hin & Hd). exists l. split; [now right | exact Hd].
      * intros (l & [<- | Hin] & Hd).
        -- apply devices_test in Hd. congruence.
        -- now exists l.
Qed.

Lemma devices_line_failure_name (lines : list string) :
  snd (devices_line lines) <> None -> fst (devices_line lines) = "".
Proof.
  induction lines as [|line rest IH]; [reflexivity|].
  cbn [devices_line].
  destruct (Nat.eqb (List.length (SplitN line ":" 3)) 3
            && String.eqb (nth 1 (SplitN line ":" 3) "") "devices");
    [cbn; congruence | exact IH].
Qed.

End CgroupMore.

(** X8.  The container name is taken from the first line of the shape
    [<id>:devices:<path>], whatever follows it, later devices lines
    included: it is the path, colons and all, with the white space around
    it trimmed. *)
Theorem cgroup_first_devices_line_wins :
  forall (before after : list string) (id p : string),
    (forall l, In l (before ++ after) -> mem "010" l = false) ->
    mem "010" id = false ->
    mem "010" p = false ->
    mem ":" id = false ->
    (forall l, In l before -> ~ is_devices_line l) ->
    containerNameFromProcCgroup
      (strings.Join (before ++ (id ++ ":devices:" ++ p) :: after) LF)
    = (strings.TrimSpace p, None).
Proof.
  intros before after id p Hfree Hid Hp Hcolon Hno.
  unfold containerNameFromProcCgroup, LF.
  rewrite SplitFacts.Split_Join.
  - rewrite CgroupFacts.devices_line_skip by assumption.
    now apply CgroupFacts.devices_line_first.
  - now destruct before.
  - intros l Hl. apply in_app_or in Hl as [Hl | [<- | Hl]].
    + apply Hfree, in_or_app. now left.
    + rewrite !mem_append, Hid, Hp. reflexivity.
    + apply Hfree, in_or_app. now right.
Qed.

Lemma cgroup_first_devices_line_wins_witness :
  containerNameFromProcCgroup
    ("12:cpu,cpuacct:/a" ++ LF ++ "7:devices: /kubepods/pod1:x  " ++ LF
     ++ "3:devices:/other")
  = ("/kubepods/pod1:x", None).
Proof.
  apply (cgroup_first_devices_line_wins
           ["12:cpu,cpuacct:/a"] ["3:devices:/other"] "7"
           " /kubepods/pod1:x  ").
  - intros l [<- | [<- | []]]; reflexivity.
  - reflexivity.
  - reflexivity.
  - reflexivity.
  - intros l [<- | []] Hd. apply CgroupFacts.devices_test in Hd.
    vm_compute in Hd. discriminate.
Defined.

(** X9.  [containerNameFromProcCgroup] succeeds exactly on the texts that
    have a line of the shape [<id>:devices:<path>]; when it fails the name
    it returns is empty. *)
Theorem cgroup_parse_succeeds_iff :
  forall content : string,
    (snd (containerNameFromProcCgroup content) = None
     <-> exists line,
        In line (strings.Split content "010") /\ is_devices_line line)
    /\ (snd (containerNameFromProcCgroup content) <> None ->
        fst (containerNameFromProcCgroup content) = "").
Proof.
  intros content. unfold containerNameFromProcCgroup. split.
  - apply CgroupMore.devices_line_succeeds_iff.
  - apply CgroupMore.devices_line_failure_name.
Qed.

Lemma cgroup_parse_succeeds_iff_witness :
  fst (containerNameFromProcCgroup "4:cpu,devices:/docker/nginx") = "".
Proof.
  apply (proj2 (cgroup_parse_succeeds_iff "4:cpu,devices:/docker/nginx")).
  discriminate.
Defined.

(** X10.  A path that starts and ends with an ASCII byte other than
    white space comes back from [containerNameFromProcCgroup] exactly as
    the devices line has it. *)
Theorem cgroup_clean_path_verbatim :
  forall (before after : list string) (id p : string),
    (forall l, In l (before ++ after) -> mem "010" l = false) ->
    mem "010" id = false ->
    mem "010" p = false ->
    mem ":" id = false ->
    (forall l, In l before -> ~ is_devices_line l) ->
    clean_start p = true ->
    clean_end p = true ->
    containerNameFromProcCgroup
      (strings.Join (before ++ (id ++ ":devices:" ++ p) :: after) LF)
    = (p, None).
Proof.
  intros before after id p Hfree Hid Hp Hcolon Hno Hs He.
  unfold containerNameFromProcCgroup, LF.
  rewrite SplitFacts.Split_Join.
  - rewrite CgroupFacts.devices_line_skip by assumption.
    rewrite CgroupFacts.devices_line_first by assumption.
    now rewrite TrimFacts.TrimSpace_clean.
  - now destruct before.
  - intros l Hl. apply in_app_or in Hl as [Hl | [<- | Hl]].
    + apply Hfree, in_or_app. now left.
    + rewrite !mem_append, Hid, Hp. reflexivity.
    + apply Hfree, in_or_app. now right.
Qed.

Lemma cgroup_clean_path_verbatim_witness :
  containerNameFromProcCgroup
    ("2:devices:/user/1000.user/c1.session" ++ LF ++ "1:name=systemd:/x")
  = ("/user/1000.user/c1.session", None).
Proof.
  apply (cgroup_clean_path_verbatim
           [] ["1:name=systemd:/x"] "2" "/user/1000.user/c1.session");
    try reflexivity.
  - intros l [<- | []]. reflexivity.
  - intros l [].
Defined.

(** X11.  When the file /proc/<pid>/cgroup can be read and its first line
    of the shape [<id>:devices:<path>] is as below, [GetFullContainerName]
    returns that path, trimmed, with a nil error; whatever the outcome,
    the call reads that one file and does nothing else. *)
Theorem GetFullContainerName_of_cgroup_file :
  forall (pid : Z) (w : World),
    (forall (before after : list string) (id p : string),
        file_content w ("/proc/" ++ strconv.Itoa pid ++ "/cgroup")
        = Ok (strings.Join (before ++ (id ++ ":devices:" ++ p) :: after) LF) ->
        (forall l, In l (before ++ after) -> mem "010" l = false) ->
        mem "010" id = false ->
        mem "010" p = false ->
        mem ":" id = false ->
        (forall l, In l before -> ~ is_devices_line l) ->
        fst (GetFullContainerName pid w) = (strings.TrimSpace p, None))
    /\ trace (snd (GetFullContainerName pid w))
       = (trace w
          ++ [EvReadFile ("/proc/" ++ strconv.Itoa pid ++ "/cgroup")])%list
    /\ same_system w (snd (GetFullContainerName pid w)).
Proof.
  intros pid w.
  assert (HT : trace (snd (GetFullContainerName pid w))
               = (trace w
                  ++ [EvReadFile ("/proc/" ++ strconv.Itoa pid ++ "/cgroup")])%list
               /\ same_system w (snd (GetFullContainerName pid w))).
  { unfold GetFullContainerName, ReadFile. rewrite PathFacts.cgroup_path.
    destruct (file_content w _) as [content|err];
      [|destruct (os.IsNotExist err)]; repeat split. }
  split; [|exact HT].
  intros before after id p Hread Hfree Hid Hp Hcolon Hno.
  unfold GetFullContainerName, ReadFile.
  rewrite PathFacts.cgroup_path, Hread.
  cbn [fst]. unfold containerNameFromProcCgroup, LF.
  rewrite SplitFacts.Split_Join.
  - rewrite CgroupFacts.devices_line_skip by assumption.
    now apply CgroupFacts.devices_line_first.
  - now destruct before.
  - intros l Hl. apply in_app_or in Hl as [Hl | [<- | Hl]].
    + apply Hfree, in_or_app. now left.
    + rewrite !mem_append, Hid, Hp. reflexivity.
    + apply Hfree, in_or_app. now right.
Qed.

Lemma GetFullContainerName_of_cgroup_file_witness :
  fst (GetFullContainerName 4242 cgroup_world) = ("/docker/nginx", None).
Proof.
  apply (proj1 (GetFullContainerName_of_cgroup_file 4242 cgroup_world)
           ["11:cpu,cpuacct:/docker/nginx"] ["1:name=systemd:/docker/nginx"]
           "4" " /docker/nginx").
  - reflexivity.
  - intros l [<- | [<- | []]]; reflexivity.
  - reflexivity.
  - reflexivity.
  - reflexivity.
  - intros l [<- | []] Hd. apply CgroupFacts.devices_test in Hd.
    vm_compute in Hd. discriminate.
Defined.

(* ================================================================== *)
(** * Further properties: directory names and pids *)

Module AtoiFacts.
Import strconv.





Lemma uint_digits (d : Decimal.uint) :
  all_bytes is_digit (NilEmpty.string_of_uint d) = true.
Proof. induction d; simpl; auto. Qed.

Lemma digits_value_of_lu (d d' : Decimal.uint) :
  digits_value (Z.of_N (DecimalPos.Unsigned.of_lu d'))
               (NilEmpty.string_of_uint d)
  = Z.of_N (DecimalPos.Unsigned.of_lu (Decimal.revapp d d')).
Proof.
  revert d'. induction d; intros d'; [reflexivity|..];
    cbn [NilEmpty.string_of_uint digits_value Decimal.revapp];
    rewrite <- IHd; f_equal;
    cbn [DecimalPos.Unsigned.of_lu];
    match goal with
    | |- context [N_of_ascii ?c] =>
      let n := eval vm_compute in (N_of_ascii c) in
      change (N_of_ascii c) with n
    end; lia.
Qed.

Lemma digits_value_uint (d : Decimal.uint) :
  digits_value 0 (NilEmpty.string_of_uint d) = Z.of_N (Pos.of_uint d).
Proof.
  rewrite DecimalPos.Unsigned.of_uint_alt.
  exact (digits_value_of_lu d Decimal.Nil).
Qed.

Lemma uint_text_nonempty (p : positive) :
  NilEmpty.string_of_uint (Pos.to_uint p) <> "".
Proof.
  pose proof (DecimalPos.Unsigned.to_uint_nonnil p) as H.
  destruct (Pos.to_uint p); [congruence | discriminate ..].
Qed.

Lemma Atoi_unsigned (ds : string) :
  ds <> "" ->
  all_bytes is_digit ds = true ->
  Atoi ds
  = if (int_min <=? digits_value 0 ds)%Z && (digits_value 0 ds <=? int_max)%Z
    then Some (digits_value 0 ds) else None.
Proof.
  destruct ds as [|c t]; [congruence|]. intros _ H.
  unfold Atoi.
  destruct c as [[|] [|] [|] [|] [|] [|] [|] [|]];
    try discriminate H; cbv beta iota zeta; now rewrite H.
Qed.

Lemma Atoi_negative (ds : string) :
  ds <> "" ->
  all_bytes is_digit ds = true ->
  Atoi (String "-" ds)
  = if (int_min <=? - digits_value 0 ds)%Z
       && (- digits_value 0 ds <=? int_max)%Z
    then Some (- digits_value 0 ds)%Z else None.
Proof.
  destruct ds as [|c t]; [congruence|]. intros _ H.
  unfold Atoi. cbv beta iota zeta. now rewrite H.
Qed.

End AtoiFacts.



(** X13.  The decimal text that [Itoa] gives for an [int] is read back by
    [Atoi] as that [int]: the directory of a pid, as
    [GetFullContainerName] names it, is an entry the scan takes for that
    pid. *)
Theorem Atoi_Itoa :
  forall i : Z,
    (strconv.int_min <= i <= strconv.int_max)%Z ->
    strconv.Atoi (strconv.Itoa i) = Some i.
Proof.
  intros i [Hlo Hhi]. unfold strconv.Itoa.
  destruct i as [|p|p].
  - reflexivity.
  - cbn [Z.to_int NilZero.string_of_int].
    assert (E : NilZero.string_of_uint (Pos.to_uint p)
                = NilEmpty.string_of_uint (Pos.to_uint p)).
    { pose proof (DecimalPos.Unsigned.to_uint_nonnil p) as Hn.
      unfold NilZero.string_of_uint.
      destruct (Pos.to_uint p); [congruence | reflexivity ..]. }
    rewrite E, AtoiFacts.Atoi_unsigned;
      [|apply AtoiFacts.uint_text_nonempty | apply AtoiFacts.uint_digits].
    rewrite AtoiFacts.digits_value_uint, DecimalPos.Unsigned.of_to.
    cbn [Z.of_N].
    apply Z.leb_le in Hlo, Hhi. now rewrite Hlo, Hhi.
  - cbn [Z.to_int NilZero.string_of_int].
    assert (E : NilZero.string_of_uint (Pos.to_uint p)
                = NilEmpty.string_of_uint (Pos.to_uint p)).
    { pose proof (DecimalPos.Unsigned.to_uint_nonnil p) as Hn.
      unfold NilZero.string_of_uint.
      destruct (Pos.to_uint p); [congruence | reflexivity ..]. }
    rewrite E, AtoiFacts.Atoi_negative;
      [|apply AtoiFacts.uint_text_nonempty | apply AtoiFacts.uint_digits].
    rewrite AtoiFacts.digits_value_uint, DecimalPos.Unsigned.of_to.
    cbn [Z.of_N Z.opp].
    apply Z.leb_le in Hlo, Hhi. now rewrite Hlo, Hhi.
Qed.

Lemma Atoi_Itoa_witness :
  strconv.Atoi (strconv.Itoa (-4242)) = Some (-4242)%Z.
Proof.
  apply Atoi_Itoa. unfold strconv.int_min, strconv.int_max. lia.
Defined.

(* ================================================================== *)
(** * Further properties: the token of a command line *)

Module TokenFacts.
Import strings SplitFacts.

Lemma mem_take (c : ascii) (n : nat) (s : string) :
  mem c (take n s) = true -> mem c s = true.
Proof.
  revert s. induction n as [|n IH]; intros [|x s]; simpl; try discriminate.
  intros H. apply orb_true_iff in H as [H|H]; apply orb_true_iff; auto.
Qed.

Lemma mem_drop (c : ascii) (n : nat) (s : string) :
  mem c (drop n s) = true -> mem c s = true.
Proof.
  revert s. induction n as [|n IH]; intros [|x s]; simpl; auto.
  intros H. apply orb_true_iff. right. now apply IH.
Qed.











End TokenFacts.

(** X14.  Only the text before the first NUL of a command line counts:
    the arguments after it never change the token that is matched. *)
Theorem first_token_ignores_arguments :
  forall exe args : string,
    mem "000" exe = false ->
    first_token (exe ++ String "000" args) = first_token exe.
Proof.
  intros exe args H. unfold first_token.
  change (bytes.SplitN (exe ++ String "000" args) "000" 2)
    with (strings.pieces 2 "000" (exe ++ String "000" args)).
  change (bytes.SplitN exe "000" 2) with (strings.pieces 2 "000" exe).
  rewrite !SplitFacts.pieces_SS.
  assert (E1 : strings.cut "000" (exe ++ String "000" args) = Some (exe, args))
    by (apply SplitFacts.cut_Some; now split).
  assert (E2 : strings.cut "000" exe = None) by now apply SplitFacts.cut_None.
  now rewrite E1, E2.
Qed.

Lemma first_token_ignores_arguments_witness :
  first_token ("/usr/sbin/nginx" ++ String "000" ("-g" ++ NUL ++ "daemon off;"))
  = first_token "/usr/sbin/nginx".
Proof. apply first_token_ignores_arguments. reflexivity. Defined.





(** X17.  The name goes into the expression as it is.  With an opening
    parenthesis in front of plain characters, neither expression
    compiles: both operations return the syntax error "missing closing )"
    for the expression they built, and make no call. *)
Theorem unbalanced_name_is_a_syntax_error :
  forall (name : string) (errno_text : Z -> string) (sig : Z) (w : World),
    plain_name name = true ->
    PidOf regexp.Compile regexp.MatchString ("(" ++ name) w
    = ((Some [],
        Some (SyntaxError regexp.ErrMissingParen ("(^|/)(" ++ name ++ "$"))),
       w)
    /\ PKill regexp.Compile regexp.MatchString errno_text ("(" ++ name) sig w
       = (Some (SyntaxError regexp.ErrMissingParen ("(" ++ name)), w).
Proof.
  intros name errno_text sig w Hplain.
  pose proof (RegexpFacts.plain_name_ascii _ Hplain) as Hascii.
  assert (HP : regexp.parse ("(^|/)(" ++ name ++ "$")
               = regexp.Invalid regexp.ErrMissingParen).
  { unfold regexp.parse. rewrite Utf8Facts.runes_ascii.
    - rewrite !RegexpFacts.list_ascii_append, !map_app.
      change (regexp.parse_loop
                (map (fun c => (utf8.byte c, String c ""))
                     (list_ascii_of_string name)
                 ++ [(36%N, "$")])%list
                regexp.AfterParen
                [regexp.mkFrame
                   [] [regexp.Capture
                         (regexp.Alternate regexp.BeginText
                                           (regexp.Literal 47))]]
                (regexp.mkFrame [] [])
              = regexp.Invalid regexp.ErrMissingParen).
      destruct name as [|c name]; [reflexivity|].
      cbn [plain_name all_bytes] in Hplain.
      apply andb_true_iff in Hplain as [Hc Hn].
      cbn [list_ascii_of_string map app].
      rewrite RegexpFacts.parse_loop_plain_byte by (auto; discriminate).
      rewrite RegexpFacts.parse_loop_plain by exact Hn. reflexivity.
    - rewrite !RegexpFacts.all_bytes_append, Hascii. reflexivity. }
  assert (HK : regexp.parse ("(" ++ name)
               = regexp.Invalid regexp.ErrMissingParen).
  { unfold regexp.parse. rewrite Utf8Facts.runes_ascii.
    - rewrite !RegexpFacts.list_ascii_append, !map_app.
      change (regexp.parse_loop
                (map (fun c => (utf8.byte c, String c ""))
                     (list_ascii_of_string name))
                regexp.AfterParen
                [regexp.mkFrame [] []]
                (regexp.mkFrame [] [])
              = regexp.Invalid regexp.ErrMissingParen).
      destruct name as [|c name]; [reflexivity|].
      cbn [plain_name all_bytes] in Hplain.
      apply andb_true_iff in Hplain as [Hc Hn].
      cbn [list_ascii_of_string map].
      rewrite RegexpFacts.parse_loop_plain_byte by (auto; discriminate).
      rewrite <- (app_nil_r (map _ _)).
      rewrite RegexpFacts.parse_loop_plain by exact Hn. reflexivity.
    - rewrite !RegexpFacts.all_bytes_append, Hascii. reflexivity. }
  assert (E : "(^|/)" ++ ("(" ++ name) ++ "$" = "(^|/)(" ++ name ++ "$")
    by reflexivity.
  assert (Hne : "(" ++ name <> "") by discriminate.
  split.
  - unfold PidOf. rewrite (KillFacts.nonempty_length _ Hne), E.
    unfold regexp.Compile. now rewrite HP.
  - unfold PKill. rewrite (KillFacts.nonempty_length _ Hne).
    unfold regexp.Compile. now rewrite HK.
Qed.

Lemma unbalanced_name_is_a_syntax_error_witness :
  PidOf regexp.Compile regexp.MatchString "(nginx" nginx_world
  = ((Some [], Some (SyntaxError regexp.ErrMissingParen "(^|/)(nginx$")),
     nginx_world).
Proof.
  apply (proj1 (unbalanced_name_is_a_syntax_error
                  "nginx" errno_text_kill 15 nginx_world eq_refl)).
Defined.

(* ================================================================== *)
(** * Further properties: the end of the directory, the lines *)

Module LineFacts.
Import strings SplitFacts.

(** With more pieces allowed than the text has bytes, no piece contains
    the separator. *)
Lemma pieces_free (sep : ascii) (n : nat) (s : string) :
  String.length s < n ->
  forall piece, In piece (pieces n sep s) -> mem sep piece = false.
Proof.
  revert s. induction n as [|n IH]; intros s Hn piece Hin; [lia|].
  destruct n as [|n].
  - destruct s; [|simpl in Hn; lia].
    destruct Hin as [<- | []]. reflexivity.
  - rewrite pieces_SS in Hin.
    destruct (cut sep s) as [[a b]|] eqn:E.
    + apply cut_Some in E as [-> Ha].
      destruct Hin as [<- | Hin]; [exact Ha|].
      apply (IH b); [|exact Hin].
      rewrite length_append in Hn. simpl in Hn. lia.
    + destruct Hin as [<- | []]. now apply cut_None.
Qed.

Lemma Split_free (sep : ascii) (s piece : string) :
  In piece (Split s sep) -> mem sep piece = false.
Proof. rewrite Split_pieces. apply pieces_free. lia. Qed.

Lemma mem_trim_left (c : ascii) (f : N -> bool) (fuel : nat) (s : string) :
  mem c (trim_left_fuel fuel f s) = true -> mem c s = true.
Proof.
  revert s. induction fuel as [|fuel IH]; intros s; [auto|].
  destruct s as [|x t]; [auto|]. cbn [trim_left_fuel].
  destruct (utf8.DecodeRuneInString (String x t)) as [r w].
  destruct (f r); [|auto].
  intros H. apply IH in H. now apply TokenFacts.mem_drop in H.
Qed.

Lemma mem_TrimSpace (c : ascii) (s : string) :
  mem c (TrimSpace s) = true -> mem c s = true.
Proof.
  unfold TrimSpace, TrimFunc. intros H.
  apply (mem_trim_left c unicode.IsSpace (String.length s) s).
  fold (TrimLeftFunc s unicode.IsSpace).
  revert H. generalize (TrimLeftFunc s unicode.IsSpace). intros u.
  unfold TrimRightFunc.
  destruct (last_index_fuel (String.length u) unicode.IsSpace u) as [i|];
    [|discriminate].
  destruct (String.get i u) as [x|];
    [destruct (utf8.RuneSelf <=? utf8.byte x)%N|];
    apply TokenFacts.mem_take.
Qed.

Lemma devices_line_free (c : ascii) (lines : list string) :
  (forall l, In l lines -> mem c l = false) ->
  mem c (fst (devices_line lines)) = false.
Proof.
  induction lines as [|line rest IH]; intros H; [reflexivity|].
  cbn [devices_line].
  destruct (Nat.eqb (List.length (SplitN line ":" 3)) 3
            && String.eqb (nth 1 (SplitN line ":" 3) "") "devices") eqn:T.
  - cbn [fst].
    apply CgroupFacts.devices_test in T as (id & p & Hid & E).
    assert (E3 : SplitN line ":" 3 = [id; "devices"; p]).
    { change (SplitN line ":" 3) with (pieces 3 ":" line).
      apply pieces3. subst line. now repeat split. }
    rewrite E3. cbn [nth].
    destruct (mem c (TrimSpace p)) eqn:M; [|reflexivity].
    apply mem_TrimSpace in M.
    assert (Hl : mem c line = false) by (apply H; now left).
    subst line. rewrite !mem_append, M, !orb_true_r in Hl. discriminate.
  - apply IH. intros l Hl. apply H. now right.
Qed.

End LineFacts.

(** X18.  A [Readdir] that returns end-of-stream ends the scan normally:
    the result is not nil, it lists, in the order of enumeration, the pid
    of every entry read before that is a directory with a numeric name
    and a readable command line whose first token the expression matches,
    and nothing else; entries returned along with the end-of-stream, and
    whatever the handle would return after it, are not looked at. *)
Theorem scan_until_end_of_directory :
  forall (Regexp : Type) (MatchString : Regexp -> string -> bool)
         (re : Regexp) (w : World) (batches : list (list FileInfo))
         (ls : list FileInfo) (rest : list ReaddirResult),
    dir_stream w "/proc" = Ok (map batch batches ++ (ls, Some EOF) :: rest)%list ->
    fst (getPids MatchString re w)
    = Some (matching_pids MatchString re (file_content w) (concat batches))
    /\ (forall pid,
           In pid (matching_pids MatchString re (file_content w)
                                 (concat batches))
           <-> exists entry cmdline tok,
               In entry (concat batches)
               /\ IsDir entry = true
               /\ strconv.Atoi (Name entry) = Some pid
               /\ file_content w ("/proc/" ++ Name entry ++ "/cmdline")
                  = Ok cmdline
               /\ first_token cmdline = Some tok
               /\ MatchString re tok = true)
    /\ files_read (scan_events w)
       = map (fun entry => "/proc/" ++ Name entry ++ "/cmdline")
             (filter numeric_dir (concat batches)).
Proof.
  intros Regexp MatchString re w batches ls rest Hd. split; [|split].
  - apply (ScanFacts.getPids_complete _ MatchString re batches
             ((ls, Some EOF) :: rest) w Hd).
    right. now exists ls, rest.
  - intros pid. rewrite ScanFacts.In_matching_pids.
    split; intros (entry & cmdline & tok & H1 & H2 & H3 & H4 & H5 & H6);
      exists entry, cmdline, tok; repeat split; auto;
      assert (E : filepath.Join ["/proc"; Name entry; "cmdline"]
                  = "/proc/" ++ Name entry ++ "/cmdline")
        by (apply PathFacts.Join3; [discriminate | | discriminate];
            intros E; rewrite E in H3; discriminate);
      congruence.
  - unfold scan_events. rewrite Hd.
    change (files_read (EvOpen "/proc"
                        :: handle_events
                             (map batch batches ++ (ls, Some EOF) :: rest)
                        ++ [EvClose])%list)
      with (files_read (handle_events
                          (map batch batches ++ (ls, Some EOF) :: rest)
                        ++ [EvClose])%list).
    rewrite TraceFacts.files_read_app. cbn [files_read flat_map app].
    rewrite app_nil_r.
    clear Hd. induction batches as [|b batches IH]; [reflexivity|].
    cbn [map batch app handle_events concat].
    change (files_read (EvReaddir 10
                        :: flat_map entry_events b
                        ++ handle_events
                             (map batch batches ++ (ls, Some EOF) :: rest))%list)
      with (files_read (flat_map entry_events b
                        ++ handle_events
                             (map batch batches ++ (ls, Some EOF) :: rest))%list).
    now rewrite TraceFacts.files_read_app, IH, filter_app, map_app,
      TraceFacts.files_read_entries.
Qed.

Lemma scan_until_end_of_directory_witness :
  fst (getPids regexp.MatchString (regexp.Literal 110) early_eof_world)
  = Some [1%Z].
Proof.
  apply (proj1 (scan_until_end_of_directory
                  _ regexp.MatchString (regexp.Literal 110) early_eof_world
                  [[dir "1"]] [dir "2"] [batch [dir "3"]] eq_refl)).
Defined.

(** X19.  The name [containerNameFromProcCgroup] returns is part of one
    line: it never contains a line feed. *)
Theorem container_name_is_one_line :
  forall content : string,
    mem "010" (fst (containerNameFromProcCgroup content)) = false.
Proof.
  intros content. unfold containerNameFromProcCgroup.
  apply LineFacts.devices_line_free.
  intros l. apply LineFacts.Split_free.
Qed.
